(** * Image Assurance operator: reconciler and configuration syncer

    A shallow embedding of
    - [pkg/controller/imageassurance/imageassurance_controller.go]
      (the [Reconcile] method and its helpers, and [add], which registers
      the watches), and
    - the [configsync] package's [syncer] (its [run] loop with
      [NewSyncer], [StartPeriodicSync] and [Error], for which one
      synchronization is a function of the world that returns an error or
      nil; and [syncConfigMap] with [getAPICertificate] on their own),
    followed by the properties of the two control loops.

    Go values are modelled as follows.  A function returning [(T, error)]
    returns [result T]; [map[string]string] and [map[string][]byte] are
    stdpp finite maps; every call that leaves the controller (the
    Kubernetes client, the [utils], [imageset], [components] and [render]
    packages, the status manager) is a field of a record of collaborators
    acting on an abstract world, and the calls whose order matters are
    recorded in a trace. *)

From Stdlib Require Import ZArith List Bool Lia Ascii String.
From stdpp Require Import base option strings gmap.

Import ListNotations.
Open Scope string_scope.

(** ** Go preliminaries *)

(** The [error] interface.  [ApiError] is an error value handed back by a
    collaborator; its flag is what [errors.IsNotFound] answers.  [Errorf]
    is a value built with [fmt.Errorf] and the verbs [%s], [%q] or [%v],
    which never satisfies [errors.IsNotFound]. *)
Inductive error : Type :=
| ApiError (notFound : bool) (msg : string)
| Errorf (msg : string).

Definition Error (e : error) : string :=
  match e with
  | ApiError _ msg => msg
  | Errorf msg => msg
  end.

Definition IsNotFound (e : error) : bool :=
  match e with
  | ApiError nf _ => nf
  | Errorf _ => false
  end.

(** [(T, error)] where the value is only meaningful when the error is nil. *)
Inductive result (A : Type) : Type :=
| Ok (a : A)
| Err (e : error).
Arguments Ok {A} a.
Arguments Err {A} e.

(** The verb [%q] on a string without characters that need escaping. *)
Definition dquote : string := String "034"%char EmptyString.
Definition quote (s : string) : string := dquote +:+ s +:+ dquote.

(** Go's [string(bytes)] and [[]byte(s)]. *)
Definition bytes : Type := list Byte.byte.
Definition bytes_of_string (s : string) : bytes := String.list_byte_of_string s.

(** [time.Duration] counts nanoseconds. *)
Definition Second : Z := 1000000000%Z.

(** ** Kubernetes and operator objects *)

Record NamespacedName : Type := {
  Name : string;
  Namespace : string
}.

Record ConfigMap : Type := {
  cmName : NamespacedName;
  cmData : gmap string string
}.

Record Secret : Type := {
  secName : NamespacedName;
  secData : gmap string bytes
}.

Record Container : Type := { Image : string }.

(** [batchv1.JobStatus]: the two counters the controller reads. *)
Record JobStatus : Type := {
  Succeeded : Z;
  Failed : Z
}.

(** [batchv1.Job]; [Containers] is [Spec.Template.Spec.Containers]. *)
Record Job : Type := {
  Containers : list Container;
  Status : JobStatus
}.

Record Deployment : Type := { depName : NamespacedName }.

(** [operatorv1.ImageAssurance]; [iaState] is [Status.State]. *)
Record ImageAssurance : Type := {
  iaName : string;
  iaState : string
}.

Record Authentication : Type := { authState : string }.

Record InstallationSpec : Type := {
  Registry : string;
  ImagePath : string;
  ImagePrefix : string
}.

(** [components.component]. *)
Record component : Type := {
  compImage : string;
  compVersion : string
}.

(** [reconcile.Result]. *)
Record Result : Type := {
  Requeue : bool;
  RequeueAfter : Z
}.

Definition Result_zero : Result := {| Requeue := false; RequeueAfter := 0 |}.

(** What a sentence [client.Get] fetched, for the trace. *)
Inductive Object : Type :=
| ObjConfigMap (cm : ConfigMap)
| ObjSecret (s : Secret)
| ObjJob (j : Job)
| ObjDeployment (d : Deployment).

(** How a statement of a function body ends: it falls through with a
    value, the function returns, or the goroutine panics. *)
Inductive Outcome (R A : Type) : Type :=
| Continue (a : A)
| Return (r : R)
| Panic.
Arguments Continue {R A} a.
Arguments Return {R A} r.
Arguments Panic {R A}.

Module Controller.

(** The functions of the controller that call [client.Get] themselves. *)
Inductive CallSite : Type :=
| In_getPGConfig
| In_getOrCreatePGUserSecret
| In_getAdminPGUserSecret
| In_getPGCertSecret
| In_getTenantKey
| In_getMigratorJob
| In_componentsUp.

(** What the controller can be made to watch. *)
Inductive Watched : Type :=
| WatchImageAssurance
| WatchAuthentication
| WatchImageSet
| WatchNetwork
| WatchConfigMap (nn : NamespacedName)
| WatchSecret (nn : NamespacedName)
| WatchJob (nn : NamespacedName)
| WatchDeployment (nn : NamespacedName).

(** Constants of the packages [imageassurance], [render], [rmeta],
    [operatorv1], [components] and [common] that the controller names. *)
Record Consts : Type := {
  OperatorNamespace : string;
  NameSpaceImageAssurance : string;
  PGConfigMapName : string;
  PGConfigHostKey : string;
  PGConfigNameKey : string;
  PGConfigPortKey : string;
  PGConfigOrgIDKey : string;
  PGConfigOrgNameKey : string;
  PGUserSecretName : string;
  PGAdminUserSecretName : string;
  PGUserSecretKey : string;
  PGUserPassKey : string;
  PGCertSecretName : string;
  PGServerCAKey : string;
  PGClientKeyKey : string;
  PGClientCertKey : string;
  TenantKeyName : string;
  EncryptionKeyName : string;
  APICertSecretName : string;
  ManagerInternalTLSSecretName : string;
  ManagerInternalSecretKeyName : string;
  ManagerInternalSecretCertName : string;
  ResourceNameImageAssuranceAPI : string;
  ResourceNameImageAssuranceScanner : string;
  ResourceNameImageAssuranceCAW : string;
  ResourceNameImageAssuranceDBMigrator : string;
  ComponentImageAssuranceDBMigrator : component;
  TigeraStatusReady : string;
  OSTypeLinux : string;
  DefaultCertificateDuration : Z
}.

(** [corev1.TLSPrivateKeyKey] and [corev1.TLSCertKey]. *)
Definition TLSPrivateKeyKey : string := "tls.key".
Definition TLSCertKey : string := "tls.crt".

Section Reconciler.

(** The cluster and everything else outside the controller; the key
    validator configuration, the image set and the installation variant
    are opaque to the controller. *)
Context {World KeyValidatorConfig ImageSet Variant : Type}.

(** [imageassurance.Config], the input of the renderer. *)
Record Config : Type := {
  PullSecrets : list Secret;
  Installation : InstallationSpec;
  OsType : string;
  PGConfig : ConfigMap;
  PGAdminUserSecret : Secret;
  PGCertSecret : Secret;
  PGUserSecret : Secret;
  TLSSecret : Secret;
  InternalMgrSecret : Secret;
  NeedsMigrating : bool;
  ComponentsUp : bool;
  KeyValidatorConfig_ : KeyValidatorConfig;
  TenantKey : Secret
}.

(** [render.Component], as the controller builds them. *)
Inductive Component : Type :=
| NewPassthrough (objs : list Secret)
| ImageAssuranceComponent (cfg : Config).

(** A call on a collaborator: it sees the world and may change it. *)
Definition Call (A : Type) : Type := World -> A * World.

Record Collaborators : Type := {
  (* sigs.k8s.io/controller-runtime client *)
  clientGetConfigMap : NamespacedName -> Call (result ConfigMap);
  clientGetSecret : NamespacedName -> Call (result Secret);
  clientGetJob : NamespacedName -> Call (result Job);
  clientGetDeployment : NamespacedName -> Call (result Deployment);
  clientStatusUpdate : ImageAssurance -> Call (option error);
  (* pkg/controller/utils *)
  GetImageAssurance : Call (result ImageAssurance);
  GetInstallation : Call (result (Variant * InstallationSpec));
  GetNetworkingPullSecrets : InstallationSpec -> Call (result (list Secret));
  ValidateCertPair : string -> string -> string -> string -> Call (result (option Secret));
  EnsureCertificateSecret :
    string -> option Secret -> string -> string -> Z -> list string -> Call (result Secret);
  RandomPassword : nat -> Call (result string);
  GetAuthentication : Call (option Authentication * option error);
  GetKeyValidatorConfig : option Authentication -> string -> Call (result KeyValidatorConfig);
  CreateOrUpdateOrDelete : ImageAssurance -> Component -> Call (option error);
  (* pkg/controller/utils/imageset, pkg/components, pkg/dns *)
  GetImageSet : Variant -> Call (result (option ImageSet));
  ValidateImageSet : option ImageSet -> option error;
  ApplyImageSet : Variant -> list Component -> Call (option error);
  GetReference : component -> string -> string -> string -> option ImageSet -> result string;
  GetServiceDNSNames : string -> string -> string -> list string;
  (* pkg/controller/status *)
  IsAvailable : Call bool;
  (* fmt's %v on a job status *)
  sprintJobStatus : JobStatus -> string
}.

(** What one reconciliation attempt did, newest event first. *)
Inductive Event : Type :=
| EvGet (site : CallSite) (key : NamespacedName) (r : result Object)
| EvGetAuthentication (cr : option Authentication) (err : option error)
| EvOnCRNotFound
| EvSetDegraded (reason detail : string)
| EvClearDegraded
| EvIsAvailable (b : bool)
| EvRender (cfg : Config)
| EvApplyImageSet (cs : list Component) (err : option error)
| EvCreateOrUpdateOrDelete (c : Component) (err : option error)
| EvStatusUpdate (ia : ImageAssurance) (err : option error).

Record St : Type := {
  world : World;
  trace : list Event
}.

Definition M (R A : Type) : Type := St -> Outcome R A * St.

Definition ret {R A} (a : A) : M R A := fun st => (Continue a, st).

Definition bind {R A B} (m : M R A) (k : A -> M R B) : M R B :=
  fun st =>
    match m st with
    | (Continue a, st') => k a st'
    | (Return r, st') => (Return r, st')
    | (Panic, st') => (Panic, st')
    end.

Definition return_ {R A} (r : R) : M R A := fun st => (Return r, st).

Definition panic {R A} : M R A := fun st => (Panic, st).

Definition emit {R} (e : Event) : M R unit :=
  fun st => (Continue tt, {| world := world st; trace := e :: trace st |}).

Definition call {R A} (c : Call A) : M R A :=
  fun st => let '(a, w) := c (world st) in (Continue a, {| world := w; trace := trace st |}).

(** Calling a function: its [return] is the value of the call. *)
Definition invoke {R A} (body : M A A) : M R A :=
  fun st =>
    match body st with
    | (Continue a, st') => (Continue a, st')
    | (Return a, st') => (Continue a, st')
    | (Panic, st') => (Panic, st')
    end.


Declare Scope go_scope.
Delimit Scope go_scope with go.
Notation "x <- m ;; k" := (bind m (fun x => k))
  (at level 63, m at next level, right associativity) : go_scope.
Notation "m ;;; k" := (bind m (fun _ => k))
  (at level 63, right associativity) : go_scope.
Local Open Scope go_scope.

(** [if cond { body }] where the body ends in [return] or falls through. *)
Definition when {R} (cond : bool) (body : M R unit) : M R unit :=
  if cond then body else ret tt.

Variable K : Consts.
Variable X : Collaborators.

(** ** The client and the status manager, with their calls recorded *)

Definition as_object {A} (f : A -> Object) (r : result A) : result Object :=
  match r with
  | Ok a => Ok (f a)
  | Err e => Err e
  end.

Definition getConfigMap {R} (site : CallSite) (nn : NamespacedName) : M R (result ConfigMap) :=
  r <- call (clientGetConfigMap X nn) ;;
  emit (EvGet site nn (as_object ObjConfigMap r)) ;;;
  ret r.

Definition getSecret {R} (site : CallSite) (nn : NamespacedName) : M R (result Secret) :=
  r <- call (clientGetSecret X nn) ;;
  emit (EvGet site nn (as_object ObjSecret r)) ;;;
  ret r.

Definition getJob {R} (site : CallSite) (nn : NamespacedName) : M R (result Job) :=
  r <- call (clientGetJob X nn) ;;
  emit (EvGet site nn (as_object ObjJob r)) ;;;
  ret r.

Definition getDeployment {R} (site : CallSite) (nn : NamespacedName) : M R (result Deployment) :=
  r <- call (clientGetDeployment X nn) ;;
  emit (EvGet site nn (as_object ObjDeployment r)) ;;;
  ret r.

Definition SetDegraded {R} (reason detail : string) : M R unit :=
  emit (EvSetDegraded reason detail).

Definition ClearDegraded {R} : M R unit := emit EvClearDegraded.

Definition OnCRNotFound {R} : M R unit := emit EvOnCRNotFound.

Definition statusIsAvailable {R} : M R bool :=
  b <- call (IsAvailable X) ;;
  emit (EvIsAvailable b) ;;;
  ret b.

(** ** Required fields *)

(** [v, ok := data[key]; !ok || len(v) == 0] on a config map. *)
Definition lacks_text (data : gmap string string) (key : string) : bool :=
  match data !! key with
  | Some v => Nat.eqb (String.length v) 0
  | None => true
  end.

(** The same test on a secret. *)
Definition lacks_bytes (data : gmap string bytes) (key : string) : bool :=
  match data !! key with
  | Some v => Nat.eqb (List.length v) 0
  | None => true
  end.

Definition expected_secret_field (name key : string) : error :=
  Errorf ("expected secret " +:+ quote name +:+ " to have a field named " +:+ quote key).

Definition expected_configmap_field (name key : string) : error :=
  Errorf ("expected configmap " +:+ quote name +:+ " to have a field named " +:+ quote key).

Definition failed_to_read_secret (name : string) (err : error) : error :=
  Errorf ("failed to read secret " +:+ quote name +:+ ": " +:+ Error err).

(** ** Helpers of the controller *)

(** [getOrCreatePGUserSecret] (lines 376-416). *)
Definition getOrCreatePGUserSecret (orgID : string) : M (result Secret) (result Secret) :=
  let snn := {| Name := PGUserSecretName K; Namespace := NameSpaceImageAssurance K |} in
  r <- getSecret In_getOrCreatePGUserSecret snn ;;
  us <- match r with
        | Err err =>
            if IsNotFound err then
              p <- call (RandomPassword X 16) ;;
              match p with
              | Err err' => return_ (Err err')
              | Ok pass =>
                  return_ (Ok {| secName := snn;
                                 secData := {[ "username" := bytes_of_string (orgID +:+ "_user");
                                               "password" := bytes_of_string pass ]} |})
              end
            else return_ (Err (failed_to_read_secret (PGUserSecretName K) err))
        | Ok us => ret us
        end ;;
  when (lacks_bytes (secData us) (PGUserSecretKey K))
    (return_ (Err (expected_secret_field (PGUserSecretName K) (PGUserSecretKey K)))) ;;;
  when (lacks_bytes (secData us) (PGUserPassKey K))
    (return_ (Err (expected_secret_field (PGUserSecretName K) (PGUserPassKey K)))) ;;;
  return_ (Ok us).

(** [getAdminPGUserSecret] (lines 419-442).  The messages about a missing
    field name [PGUserSecretName], as the source does. *)
Definition getAdminPGUserSecret : M (result Secret) (result Secret) :=
  let snn := {| Name := PGAdminUserSecretName K; Namespace := OperatorNamespace K |} in
  r <- getSecret In_getAdminPGUserSecret snn ;;
  us <- match r with
        | Err err => return_ (Err (failed_to_read_secret (PGAdminUserSecretName K) err))
        | Ok us => ret us
        end ;;
  when (lacks_bytes (secData us) (PGUserSecretKey K))
    (return_ (Err (expected_secret_field (PGUserSecretName K) (PGUserSecretKey K)))) ;;;
  when (lacks_bytes (secData us) (PGUserPassKey K))
    (return_ (Err (expected_secret_field (PGUserSecretName K) (PGUserPassKey K)))) ;;;
  return_ (Ok us).

(** [getPGCertSecret] (lines 445-472). *)
Definition getPGCertSecret : M (result Secret) (result Secret) :=
  let snn := {| Name := PGCertSecretName K; Namespace := OperatorNamespace K |} in
  r <- getSecret In_getPGCertSecret snn ;;
  cs <- match r with
        | Err err => return_ (Err (failed_to_read_secret (PGCertSecretName K) err))
        | Ok cs => ret cs
        end ;;
  when (lacks_bytes (secData cs) (PGServerCAKey K))
    (return_ (Err (expected_secret_field (PGCertSecretName K) (PGServerCAKey K)))) ;;;
  when (lacks_bytes (secData cs) (PGClientKeyKey K))
    (return_ (Err (expected_secret_field (PGCertSecretName K) (PGClientKeyKey K)))) ;;;
  when (lacks_bytes (secData cs) (PGClientCertKey K))
    (return_ (Err (expected_secret_field (PGCertSecretName K) (PGClientCertKey K)))) ;;;
  return_ (Ok cs).

(** [getAPICertSecret] (lines 476-496). *)
Definition getAPICertSecret (clusterDomain : string) : M (result Secret) (result Secret) :=
  r <- call (ValidateCertPair X (OperatorNamespace K) (APICertSecretName K)
               TLSPrivateKeyKey TLSCertKey) ;;
  secret <- match r with
            | Err err => return_ (Err err)
            | Ok secret => ret secret
            end ;;
  let svcDNSNames :=
    GetServiceDNSNames X (ResourceNameImageAssuranceAPI K) (NameSpaceImageAssurance K)
      clusterDomain in
  r' <- call (EnsureCertificateSecret X (APICertSecretName K) secret TLSPrivateKeyKey
                TLSCertKey (DefaultCertificateDuration K) svcDNSNames) ;;
  match r' with
  | Err err =>
      return_ (Err (Errorf ("error ensuring TLS certificate exists and has valid DNS names "
                            +:+ quote (ManagerInternalTLSSecretName K) +:+ ": " +:+ Error err)))
  | Ok secret' => return_ (Ok secret')
  end.

(** [getPGConfig] (lines 499-536). *)
Definition getPGConfig : M (result ConfigMap) (result ConfigMap) :=
  let nn := {| Name := PGConfigMapName K; Namespace := OperatorNamespace K |} in
  r <- getConfigMap In_getPGConfig nn ;;
  cm <- match r with
        | Err err => return_ (Err (failed_to_read_secret (PGConfigMapName K) err))
        | Ok cm => ret cm
        end ;;
  when (lacks_text (cmData cm) (PGConfigHostKey K))
    (return_ (Err (expected_configmap_field (PGConfigMapName K) (PGConfigHostKey K)))) ;;;
  when (lacks_text (cmData cm) (PGConfigNameKey K))
    (return_ (Err (expected_configmap_field (PGConfigMapName K) (PGConfigNameKey K)))) ;;;
  when (lacks_text (cmData cm) (PGConfigPortKey K))
    (return_ (Err (expected_configmap_field (PGConfigMapName K) (PGConfigPortKey K)))) ;;;
  when (lacks_text (cmData cm) (PGConfigOrgIDKey K))
    (return_ (Err (expected_configmap_field (PGConfigMapName K) (PGConfigOrgIDKey K)))) ;;;
  when (lacks_text (cmData cm) (PGConfigOrgNameKey K))
    (return_ (Err (expected_configmap_field (PGConfigMapName K) (PGConfigOrgNameKey K)))) ;;;
  return_ (Ok cm).

(** [getMigratorJob] (lines 539-553): the job, or nil when it is not found. *)
Definition getMigratorJob : M (result (option Job)) (result (option Job)) :=
  let name := {| Name := ResourceNameImageAssuranceDBMigrator K;
                 Namespace := NameSpaceImageAssurance K |} in
  r <- getJob In_getMigratorJob name ;;
  match r with
  | Err err => if IsNotFound err then return_ (Ok None) else return_ (Err err)
  | Ok job => return_ (Ok (Some job))
  end.

(** One of the three lookups of [componentsUp]: found returns [true, nil],
    an error other than not-found returns [false, err]. *)
Definition deploymentUp (name : string) : M (bool * option error) unit :=
  r <- getDeployment In_componentsUp
         {| Name := name; Namespace := NameSpaceImageAssurance K |} ;;
  match r with
  | Err err => if negb (IsNotFound err) then return_ (false, Some err) else ret tt
  | Ok _ => return_ (true, None)
  end.

(** [componentsUp] (lines 556-600). *)
Definition componentsUp : M (bool * option error) (bool * option error) :=
  deploymentUp (ResourceNameImageAssuranceAPI K) ;;;
  deploymentUp (ResourceNameImageAssuranceScanner K) ;;;
  deploymentUp (ResourceNameImageAssuranceCAW K) ;;;
  return_ (false, None).

(** [needsMigrating] (lines 603-631).  Indexing [Containers[0]] of an empty
    slice panics. *)
Definition needsMigrating (installation : InstallationSpec) (imageSet : option ImageSet)
    (migratorJob : option Job) : M (bool * option error) (bool * option error) :=
  let needsMigrating := false in
  newJobImageName <-
    match GetReference X (ComponentImageAssuranceDBMigrator K) (Registry installation)
            (ImagePath installation) (ImagePrefix installation) imageSet with
    | Err err => return_ (false, Some err)
    | Ok ref => ret ref
    end ;;
  let needsMigrating :=
    match migratorJob with
    | Some job => if (Succeeded (Status job) =? 0)%Z then true else needsMigrating
    | None => needsMigrating
    end in
  previousJobImageName <-
    match migratorJob with
    | Some job =>
        match Containers job !! 0%nat with
        | Some c => ret (Image c)
        | None => panic
        end
    | None => ret ""
    end ;;
  let needsMigrating :=
    if String.eqb previousJobImageName "" || negb (String.eqb previousJobImageName newJobImageName)
    then true else needsMigrating in
  return_ (needsMigrating, None).

(** [getTenantKey] (lines 634-651).  The message about the missing field
    names [PGCertSecretName], as the source does. *)
Definition getTenantKey : M (result Secret) (result Secret) :=
  let snn := {| Name := TenantKeyName K; Namespace := OperatorNamespace K |} in
  r <- getSecret In_getTenantKey snn ;;
  cs <- match r with
        | Err err => return_ (Err (failed_to_read_secret (TenantKeyName K) err))
        | Ok cs => ret cs
        end ;;
  when (lacks_bytes (secData cs) (EncryptionKeyName K))
    (return_ (Err (expected_secret_field (PGCertSecretName K) (EncryptionKeyName K)))) ;;;
  return_ (Ok cs).

(** ** Reconcile *)

(** What [Reconcile] returns: [(reconcile.Result, error)]. *)
Definition Returned : Type := (Result * option error)%type.

(** [ReconcileImageAssurance.clusterDomain]. *)
Variable clusterDomain : string.

(** The recurring
    [if err != nil { log; r.status.SetDegraded(reason, err.Error()); return reconcile.Result{}, err }]. *)
Definition orDegraded {A} (reason : string) (r : result A) : M Returned A :=
  match r with
  | Ok a => ret a
  | Err err => SetDegraded reason (Error err) ;;; return_ (Result_zero, Some err)
  end.

Definition isNil {A} (p : option A) : bool :=
  match p with
  | None => true
  | Some _ => false
  end.

(** The loop over [components] (lines 321-327); the handler [ch] was made
    for [ia]. *)
Fixpoint applyComponents (ia : ImageAssurance) (components : list Component)
    : M Returned unit :=
  match components with
  | [] => ret tt
  | component :: rest =>
      e <- call (CreateOrUpdateOrDelete X ia component) ;;
      emit (EvCreateOrUpdateOrDelete component e) ;;;
      match e with
      | Some err =>
          SetDegraded "Error creating / updating resource" (Error err) ;;;
          return_ (Result_zero, Some err)
      | None => ret tt
      end ;;;
      applyComponents ia rest
  end.

(** The local variables that are live at line 336. *)
Record Applied : Type := {
  the_ia : ImageAssurance;
  the_needsMigrating : bool;
  the_componentsUp : bool;
  the_migratorJob : option Job
}.

(** [Reconcile], lines 145-334: from the lookup of the primary resource to
    the second read of the migrator job. *)
Definition Reconcile_apply : M Returned Applied :=
  r <- call (GetImageAssurance X) ;;
  ia <- match r with
        | Err err =>
            if IsNotFound err then
              OnCRNotFound ;;;
              return_ (Result_zero, None)
            else
              SetDegraded "Error querying for ImageAssurance" (Error err) ;;;
              return_ (Result_zero, Some err)
        | Ok ia => ret ia
        end ;;
  r <- call (GetInstallation X) ;;
  vi <- match r with
        | Err err =>
            if IsNotFound err then
              SetDegraded "Installation not found" (Error err) ;;;
              return_ (Result_zero, None)
            else
              SetDegraded "Error querying installation" (Error err) ;;;
              return_ (Result_zero, Some err)
        | Ok vi => ret vi
        end ;;
  let variant := fst vi in
  let installation := snd vi in
  r <- call (GetNetworkingPullSecrets X installation) ;;
  pullSecrets <- orDegraded "Error retrieving image pull secrets" r ;;
  r <- invoke getPGConfig ;;
  pgConfig <- orDegraded "Error retrieving postgres configuration" r ;;
  r <- invoke (getOrCreatePGUserSecret (default "" (cmData pgConfig !! PGConfigOrgIDKey K))) ;;
  pgUserSecret <- orDegraded "Error retrieving postgres secret" r ;;
  r <- invoke getAdminPGUserSecret ;;
  pgAdminUserSecret <- orDegraded "Error retrieving postgres admin secret" r ;;
  r <- invoke getPGCertSecret ;;
  pgCertSecret <- orDegraded "Error retrieving postgres cert secret" r ;;
  r <- call (ValidateCertPair X (OperatorNamespace K) (ManagerInternalTLSSecretName K)
               (ManagerInternalSecretKeyName K) (ManagerInternalSecretCertName K)) ;;
  internalMgrSecret <- orDegraded "Error retrieving internal manager tls secret" r ;;
  internalMgrSecret <-
    match internalMgrSecret with
    | None =>
        SetDegraded "Waiting for internal manager tls certificate to be available" "" ;;;
        return_ (Result_zero, None)
    | Some s => ret s
    end ;;
  r <- invoke (getAPICertSecret clusterDomain) ;;
  tlsSecret <- orDegraded "Error in ensuring TLS certificate for image-assurance api" r ;;
  r <- invoke getMigratorJob ;;
  migratorJob <- orDegraded "Error retrieving db-migrator job" r ;;
  r <- call (GetImageSet X variant) ;;
  imageSet <- orDegraded "Error retrieving image set" r ;;
  match ValidateImageSet X imageSet with
  | Some err =>
      SetDegraded "Error validating image set" (Error err) ;;;
      return_ (Result_zero, Some err)
  | None => ret tt
  end ;;;
  r <- invoke getTenantKey ;;
  tenantKey <- orDegraded "Error retrieving tenant key" r ;;
  nm <- invoke (needsMigrating installation imageSet migratorJob) ;;
  needsMigrating <-
    match snd nm with
    | Some err =>
        SetDegraded "Error calculating if migration is needed" (Error err) ;;;
        return_ (Result_zero, Some err)
    | None => ret (fst nm)
    end ;;
  cu <- invoke componentsUp ;;
  componentsUp <-
    match snd cu with
    | Some err =>
        SetDegraded "Error when checking if image assurance deployments are up" (Error err) ;;;
        return_ ({| Requeue := false; RequeueAfter := 20 * Second |}, Some err)
    | None => ret (fst cu)
    end ;;
  a <- call (GetAuthentication X) ;;
  emit (EvGetAuthentication (fst a) (snd a)) ;;;
  let authenticationCR := fst a in
  match snd a with
  | Some err =>
      when (negb (IsNotFound err))
        (SetDegraded "Error querying Authentication" (Error err) ;;;
         return_ (Result_zero, Some err))
  | None => ret tt
  end ;;;
  match authenticationCR with
  | Some cr =>
      when (negb (String.eqb (authState cr) (TigeraStatusReady K)))
        (SetDegraded "Authentication is not ready"
           ("authenticationCR status: " +:+ authState cr) ;;;
         return_ (Result_zero, None))
  | None => ret tt
  end ;;;
  r <- call (GetKeyValidatorConfig X authenticationCR clusterDomain) ;;
  kvc <- orDegraded "Failed to process the authentication CR." r ;;
  let config :=
    {| PullSecrets := pullSecrets;
       Installation := installation;
       OsType := OSTypeLinux K;
       PGConfig := pgConfig;
       PGAdminUserSecret := pgAdminUserSecret;
       PGCertSecret := pgCertSecret;
       PGUserSecret := pgUserSecret;
       TLSSecret := tlsSecret;
       InternalMgrSecret := internalMgrSecret;
       NeedsMigrating := needsMigrating;
       ComponentsUp := componentsUp;
       KeyValidatorConfig_ := kvc;
       TenantKey := tenantKey |} in
  emit (EvRender config) ;;;
  let components := [NewPassthrough [tlsSecret]; ImageAssuranceComponent config] in
  e <- call (ApplyImageSet X variant components) ;;
  emit (EvApplyImageSet components e) ;;;
  match e with
  | Some err =>
      SetDegraded "Error with images from ImageSet" (Error err) ;;;
      return_ (Result_zero, Some err)
  | None => ret tt
  end ;;;
  applyComponents ia components ;;;
  r <- invoke getMigratorJob ;;
  migratorJob <- orDegraded "Error retrieving db-migrator job" r ;;
  ret {| the_ia := ia;
         the_needsMigrating := needsMigrating;
         the_componentsUp := componentsUp;
         the_migratorJob := migratorJob |}.

(** [Reconcile], lines 336-372: the scheduling decision.  Reading
    [migratorJob.Status] through a nil pointer would panic. *)
Definition Reconcile_schedule (p : Applied) : M Returned Returned :=
  let migratorJob := the_migratorJob p in
  when (isNil migratorJob || (the_componentsUp p && the_needsMigrating p))
    (SetDegraded "Waiting for migrator job to be created" "" ;;;
     return_ ({| Requeue := false; RequeueAfter := 1 * Second |}, None)) ;;;
  job <- match migratorJob with
         | Some job => ret job
         | None => panic
         end ;;
  when ((Succeeded (Status job) =? 0)%Z && (Failed (Status job) =? 0)%Z)
    (SetDegraded "Waiting for migrator job to finish running" "" ;;;
     return_ (Result_zero, None)) ;;;
  when (Succeeded (Status job) =? 0)%Z
    (let err := Errorf ("migrator job failed " +:+ sprintJobStatus X (Status job)) in
     SetDegraded "Migrator job failed" (Error err) ;;;
     return_ (Result_zero, None)) ;;;
  ClearDegraded ;;;
  available <- statusIsAvailable ;;
  when (negb available)
    (return_ ({| Requeue := false; RequeueAfter := 30 * Second |}, None)) ;;;
  let ia := {| iaName := iaName (the_ia p); iaState := TigeraStatusReady K |} in
  e <- call (clientStatusUpdate X ia) ;;
  emit (EvStatusUpdate ia e) ;;;
  match e with
  | Some err => return_ (Result_zero, Some err)
  | None => return_ (Result_zero, None)
  end.

(** [Reconcile] (lines 145-373). *)
Definition Reconcile : M Returned Returned :=
  p <- Reconcile_apply ;;
  Reconcile_schedule p.

(** One reconciliation attempt, started in world [w] with an empty trace. *)
Definition attempt (w : World) : Outcome Returned Returned * St :=
  Reconcile {| world := w; trace := [] |}.

(** ** Reading the attempts *)

(** The fields each helper requires of the resource it fetched. *)
Definition required_fields (site : CallSite) : list string :=
  match site with
  | In_getPGConfig =>
      [PGConfigHostKey K; PGConfigNameKey K; PGConfigPortKey K; PGConfigOrgIDKey K;
       PGConfigOrgNameKey K]
  | In_getOrCreatePGUserSecret => [PGUserSecretKey K; PGUserPassKey K]
  | In_getAdminPGUserSecret => [PGUserSecretKey K; PGUserPassKey K]
  | In_getPGCertSecret => [PGServerCAKey K; PGClientKeyKey K; PGClientCertKey K]
  | In_getTenantKey => [EncryptionKeyName K]
  | In_getMigratorJob => []
  | In_componentsUp => []
  end.

(** The field is absent from the fetched resource, or empty. *)
Definition lacks_field (obj : Object) (key : string) : bool :=
  match obj with
  | ObjConfigMap cm => lacks_text (cmData cm) key
  | ObjSecret s => lacks_bytes (secData s) key
  | ObjJob _ => false
  | ObjDeployment _ => false
  end.

(** The error each helper returns for a missing field. *)
Definition missing_field_error (site : CallSite) (key : string) : error :=
  match site with
  | In_getPGConfig => expected_configmap_field (PGConfigMapName K) key
  | In_getOrCreatePGUserSecret => expected_secret_field (PGUserSecretName K) key
  | In_getAdminPGUserSecret => expected_secret_field (PGUserSecretName K) key
  | In_getPGCertSecret => expected_secret_field (PGCertSecretName K) key
  | In_getTenantKey => expected_secret_field (PGCertSecretName K) key
  | In_getMigratorJob => Errorf ""
  | In_componentsUp => Errorf ""
  end.

(** The reason [Reconcile] gives to [SetDegraded] when the helper fails. *)
Definition degraded_reason (site : CallSite) : string :=
  match site with
  | In_getPGConfig => "Error retrieving postgres configuration"
  | In_getOrCreatePGUserSecret => "Error retrieving postgres secret"
  | In_getAdminPGUserSecret => "Error retrieving postgres admin secret"
  | In_getPGCertSecret => "Error retrieving postgres cert secret"
  | In_getTenantKey => "Error retrieving tenant key"
  | In_getMigratorJob => "Error retrieving db-migrator job"
  | In_componentsUp => "Error when checking if image assurance deployments are up"
  end.

(** Assembling the change-set, resolving its images, applying it. *)
Definition is_apply_event (e : Event) : bool :=
  match e with
  | EvRender _ => true
  | EvApplyImageSet _ _ => true
  | EvCreateOrUpdateOrDelete _ _ => true
  | _ => false
  end.

(** [SetDegraded] was called with this reason. *)
Definition reports (reason : string) (e : Event) : bool :=
  match e with
  | EvSetDegraded r _ => String.eqb r reason
  | _ => false
  end.

(** Clearing the degraded status, asking for availability, writing the
    status of the primary resource: what only the scheduling decision does. *)
Definition is_ready_event (e : Event) : bool :=
  match e with
  | EvClearDegraded => true
  | EvIsAvailable _ => true
  | EvStatusUpdate _ _ => true
  | _ => false
  end.

(** ** Weakest preconditions *)

Definition wp {R A} (m : M R A) (Q : Outcome R A -> St -> Prop) (st : St) : Prop :=
  Q (fst (m st)) (snd (m st)).

(** The postcondition of [m] in [bind m k]. *)
Definition then_ {R A B} (k : A -> M R B) (Q : Outcome R B -> St -> Prop)
    : Outcome R A -> St -> Prop :=
  fun o st =>
    match o with
    | Continue a => wp (k a) Q st
    | Return r => Q (Return r) st
    | Panic => Q Panic st
    end.

(** The postcondition of [body] in [invoke body]. *)
Definition called {R A} (Q : Outcome R A -> St -> Prop) : Outcome A A -> St -> Prop :=
  fun o st =>
    match o with
    | Continue a => Q (Continue a) st
    | Return a => Q (Continue a) st
    | Panic => Q Panic st
    end.

(** ** What the helpers establish *)

(** A helper that fetches one resource returns to its caller, records the
    lookup, and, when the resource was found, either returns it with every
    required field present or returns the error naming a field it lacks. *)
Definition fetched {R T} (site : CallSite) (inj : T -> Object) (st : St)
    (o : Outcome R (result T)) (st' : St) : Prop :=
  exists r nn g w',
    o = Continue r /\
    st' = {| world := w'; trace := EvGet site nn g :: trace st |} /\
    forall obj, g = Ok obj ->
      (exists x, r = Ok x /\ obj = inj x /\
         Forall (fun key => lacks_field obj key = false) (required_fields site)) \/
      (exists key, In key (required_fields site) /\ lacks_field obj key = true /\
         r = Err (missing_field_error site key)).

(** [getMigratorJob] returns the job it found. *)
Definition fetched_job {R} (st : St) (o : Outcome R (result (option Job))) (st' : St)
    : Prop :=
  exists r nn g w',
    o = Continue r /\
    st' = {| world := w'; trace := EvGet In_getMigratorJob nn g :: trace st |} /\
    forall j, r = Ok (Some j) -> g = Ok (ObjJob j).

(** [tr'] is [tr] with more events in front, each satisfying [P]. *)
Inductive extends_by (P : Event -> Prop) (tr : list Event) : list Event -> Prop :=
| ext_refl : extends_by P tr tr
| ext_cons e tr' : P e -> extends_by P tr tr' -> extends_by P tr (e :: tr').

Definition is_componentsUp_get (e : Event) : Prop :=
  exists nn g, EvGet In_componentsUp nn g = e.

(** [componentsUp] returns to its caller and records only its lookups. *)
Definition looked_up {R A} (st : St) (o : Outcome R A) (st' : St) : Prop :=
  exists r w' tr',
    o = Continue r /\ st' = {| world := w'; trace := tr' |} /\
    extends_by is_componentsUp_get (trace st) tr'.

(** [getAPICertSecret] returns to its caller and records nothing. *)
Definition computed {R A} (st : St) (o : Outcome R A) (st' : St) : Prop :=
  exists r w', o = Continue r /\ st' = {| world := w'; trace := trace st |}.

(** [needsMigrating] touches nothing; it returns, or it panics on a job
    without containers. *)
Definition computed_or_panicked {R} (job : option Job) (st : St)
    (o : Outcome R (bool * option error)) (st' : St) : Prop :=
  st' = st /\
  ((exists r, o = Continue r) \/
   (o = Panic /\ exists j, job = Some j /\ Containers j = [])).

(** ** Postconditions of an attempt *)

(** If the attempt fetched a resource that lacks a required field, it ended
    by reporting the degraded status for that resource with the error naming
    a missing field, returned that error, and never assembled, resolved or
    applied a change-set. *)
Definition stops_on_incomplete (o : Outcome Returned Returned) (st : St) : Prop :=
  forall site nn obj key,
    In (EvGet site nn (Ok obj)) (trace st) ->
    In key (required_fields site) ->
    lacks_field obj key = true ->
    exists key',
      In key' (required_fields site) /\
      lacks_field obj key' = true /\
      o = Return (Result_zero, Some (missing_field_error site key')) /\
      (exists rest,
         trace st =
           EvSetDegraded (degraded_reason site) (Error (missing_field_error site key'))
             :: rest) /\
      Forall (fun e => is_apply_event e = false) (trace st).


(** Nothing that only the scheduling decision does has happened. *)
Definition not_yet_ready {A} (o : Outcome Returned A) (st : St) : Prop :=
  Forall (fun e => is_ready_event e = false) (trace st).

(** The attempt panics only after it fetched a migrator job without
    containers. *)
Definition panics_only_on_empty_job {A} (o : Outcome Returned A) (st : St) : Prop :=
  o = Panic ->
  exists nn j, In (EvGet In_getMigratorJob nn (Ok (ObjJob j))) (trace st) /\ Containers j = [].

(** ** The helpers in closed form *)

(** The first required field that a fetched resource lacks, in the order
    the helper tests them. *)
Definition first_missing (site : CallSite) (obj : Object) : option string :=
  find (lacks_field obj) (required_fields site).

(** What a helper makes of the answer [g] of its [client.Get]: a failed
    read is wrapped under [name], a resource lacking a field is refused with
    the error naming the first such field, a complete resource is returned. *)
Definition validated {T} (site : CallSite) (inj : T -> Object) (name : string)
    (g : result T) : result T :=
  match g with
  | Err err => Err (failed_to_read_secret name err)
  | Ok x =>
      match first_missing site (inj x) with
      | Some key => Err (missing_field_error site key)
      | None => Ok x
      end
  end.

(** The secret [getOrCreatePGUserSecret] builds when there is none. *)
Definition created_user_secret (orgID pass : string) : Secret :=
  {| secName := {| Name := PGUserSecretName K; Namespace := NameSpaceImageAssurance K |};
     secData := {[ "username" := bytes_of_string (orgID +:+ "_user");
                   "password" := bytes_of_string pass ]} |}.

(** The name and namespace under which each helper looks its resource up;
    [componentsUp] has three. *)
Definition key_of_site (site : CallSite) : list NamespacedName :=
  match site with
  | In_getPGConfig => [{| Name := PGConfigMapName K; Namespace := OperatorNamespace K |}]
  | In_getOrCreatePGUserSecret =>
      [{| Name := PGUserSecretName K; Namespace := NameSpaceImageAssurance K |}]
  | In_getAdminPGUserSecret =>
      [{| Name := PGAdminUserSecretName K; Namespace := OperatorNamespace K |}]
  | In_getPGCertSecret => [{| Name := PGCertSecretName K; Namespace := OperatorNamespace K |}]
  | In_getTenantKey => [{| Name := TenantKeyName K; Namespace := OperatorNamespace K |}]
  | In_getMigratorJob =>
      [{| Name := ResourceNameImageAssuranceDBMigrator K;
          Namespace := NameSpaceImageAssurance K |}]
  | In_componentsUp =>
      [{| Name := ResourceNameImageAssuranceAPI K; Namespace := NameSpaceImageAssurance K |};
       {| Name := ResourceNameImageAssuranceScanner K;
          Namespace := NameSpaceImageAssurance K |};
       {| Name := ResourceNameImageAssuranceCAW K; Namespace := NameSpaceImageAssurance K |}]
  end.

(** A helper that fetches and validates one resource: it returns to its
    caller what [validated] says and records the lookup under its key. *)
Definition fetched_exactly {R T} (site : CallSite) (inj : T -> Object) (name : string)
    (st : St) (o : Outcome R (result T)) (st' : St) : Prop :=
  exists nn g w',
    key_of_site site = [nn] /\
    o = Continue (validated site inj name g) /\
    st' = {| world := w'; trace := EvGet site nn (as_object inj g) :: trace st |}.

(** [getOrCreatePGUserSecret]: the secret it returns is the one it found,
    complete, or the one it built because none was found. *)
Definition fetched_or_created {R} (orgID : string) (st : St)
    (o : Outcome R (result Secret)) (st' : St) : Prop :=
  exists nn r g w',
    key_of_site In_getOrCreatePGUserSecret = [nn] /\
    o = Continue r /\
    st' = {| world := w';
             trace := EvGet In_getOrCreatePGUserSecret nn (as_object ObjSecret g)
                        :: trace st |} /\
    forall x, r = Ok x ->
      (g = Ok x /\ first_missing In_getOrCreatePGUserSecret (ObjSecret x) = None) \/
      (exists err pass,
         g = Err err /\ IsNotFound err = true /\ x = created_user_secret orgID pass).

(** [getMigratorJob]: the job is the one found under its key, nil when the
    answer was not-found. *)
Definition fetched_job_exactly {R} (st : St) (o : Outcome R (result (option Job)))
    (st' : St) : Prop :=
  exists nn r g w',
    key_of_site In_getMigratorJob = [nn] /\
    o = Continue r /\
    st' = {| world := w';
             trace := EvGet In_getMigratorJob nn (as_object ObjJob g) :: trace st |} /\
    (forall j, r = Ok (Some j) -> g = Ok j) /\
    (r = Ok None -> exists err, g = Err err /\ IsNotFound err = true).

Definition is_componentsUp_lookup (e : Event) : Prop :=
  exists nn g, In nn (key_of_site In_componentsUp) /\ EvGet In_componentsUp nn g = e.

(** [componentsUp] records lookups of its three deployments only. *)
Definition looked_up_exactly {R A} (st : St) (o : Outcome R A) (st' : St) : Prop :=
  exists r w' tr',
    o = Continue r /\ st' = {| world := w'; trace := tr' |} /\
    extends_by is_componentsUp_lookup (trace st) tr'.

(** ** More postconditions of an attempt *)

(** An error that [Reconcile] returns was reported: the last thing the
    attempt did was [SetDegraded] with the text of that error, unless the
    error is that of the final status update. *)
Definition errors_are_reported (o : Outcome Returned Returned) (st : St) : Prop :=
  forall res err,
    o = Return (res, Some err) ->
    (exists reason rest, trace st = EvSetDegraded reason (Error err) :: rest) \/
    (exists ia rest, trace st = EvStatusUpdate ia (Some err) :: rest).

(** The delays [Reconcile] asks for. *)
Definition requeue_is_fixed (o : Outcome Returned Returned) (st : St) : Prop :=
  forall res err,
    o = Return (res, err) ->
    Requeue res = false /\
    (RequeueAfter res = 0%Z \/
     (RequeueAfter res = (1 * Second)%Z /\ err = None) \/
     (RequeueAfter res = (20 * Second)%Z /\ err <> None) \/
     (RequeueAfter res = (30 * Second)%Z /\ err = None)).


(** The resource was fetched by [site] in this attempt under the key of
    that helper, and has every field the helper requires. *)
Definition fetched_complete (site : CallSite) (obj : Object) (tr : list Event) : Prop :=
  (exists nn, key_of_site site = [nn] /\ In (EvGet site nn (Ok obj)) tr) /\
  Forall (fun key => lacks_field obj key = false) (required_fields site).

(** What is handed to the renderer was read in this attempt and is
    complete; the user secret may instead be newly built. *)
Definition renders_what_it_fetched (o : Outcome Returned Returned) (st : St) : Prop :=
  forall cfg,
    In (EvRender cfg) (trace st) ->
    fetched_complete In_getPGConfig (ObjConfigMap (PGConfig cfg)) (trace st) /\
    fetched_complete In_getAdminPGUserSecret (ObjSecret (PGAdminUserSecret cfg)) (trace st) /\
    fetched_complete In_getPGCertSecret (ObjSecret (PGCertSecret cfg)) (trace st) /\
    fetched_complete In_getTenantKey (ObjSecret (TenantKey cfg)) (trace st) /\
    (fetched_complete In_getOrCreatePGUserSecret (ObjSecret (PGUserSecret cfg)) (trace st) \/
     exists pass,
       PGUserSecret cfg =
         created_user_secret (default "" (cmData (PGConfig cfg) !! PGConfigOrgIDKey K)) pass).

(** The state ready is written only at the end of an attempt that applied
    both components without error, then read a migrator job with a success,
    cleared the degraded status and was told that all is available. *)
Definition ready_only_when_migrated (o : Outcome Returned Returned) (st : St) : Prop :=
  forall ia e,
    In (EvStatusUpdate ia e) (trace st) ->
    iaState ia = TigeraStatusReady K /\
    o = Return (Result_zero, e) /\
    exists nn job tls cfg rest,
      Succeeded (Status job) <> 0%Z /\
      trace st =
        EvStatusUpdate ia e :: EvIsAvailable true :: EvClearDegraded
          :: EvGet In_getMigratorJob nn (Ok (ObjJob job))
          :: EvCreateOrUpdateOrDelete (ImageAssuranceComponent cfg) None
          :: EvCreateOrUpdateOrDelete (NewPassthrough [tls]) None
          :: EvApplyImageSet [NewPassthrough [tls]; ImageAssuranceComponent cfg] None
          :: EvRender cfg :: rest.

(** Every lookup of the helpers is under a key of the helper. *)
Definition looks_up_fixed_keys (o : Outcome Returned Returned) (st : St) : Prop :=
  forall site nn g, In (EvGet site nn g) (trace st) -> In nn (key_of_site site).

(** ** Registering the watches *)

(** [imageassurance.ManagerCertSecretName]. *)
Variable ManagerCertSecretName : string.

(** [c.Watch] and the helpers [AddImageSetWatch], [AddNetworkWatch],
    [AddConfigMapWatch], [AddSecretsWatch] and [AddJobWatch], by what they
    watch. *)
Variable startWatch : Watched -> Call (option error).

(** What [add] returns with: an error or nil, and the watches that were
    registered, newest first. *)
Definition Registered : Type := (option error * list Watched * World)%type.

(** [if err = watch(...); err != nil { return wrap(err) }] followed by [k]. *)
Definition watching (wt : Watched) (wrap : error -> error)
    (k : list Watched -> World -> Registered) (done : list Watched) (w : World)
    : Registered :=
  match startWatch wt w with
  | (Some err, w') => (Some (wrap err), done, w')
  | (None, w') => k (wt :: done) w'
  end.

(** A loop [for _, name := range names] around such a statement. *)
Fixpoint watching_each (names : list string) (what : string -> Watched)
    (wrap : string -> error -> error) (k : list Watched -> World -> Registered)
    (done : list Watched) (w : World) : Registered :=
  match names with
  | [] => k done w
  | name :: rest =>
      watching (what name) (wrap name) (watching_each rest what wrap k) done w
  end.

(** What is modelled of an error made with [fmt.Errorf] and [%w] or [%v] is
    its message. *)
Definition failed_to_watch (what : string) (err : error) : error :=
  Errorf ("ImageAssurance-controller failed to watch " +:+ what +:+ ": " +:+ Error err).

Definition in_operator_namespace (name : string) : NamespacedName :=
  {| Name := name; Namespace := OperatorNamespace K |}.

Definition in_image_assurance_namespace (name : string) : NamespacedName :=
  {| Name := name; Namespace := NameSpaceImageAssurance K |}.

(** [add] (lines 79-126). *)
Definition add : World -> Registered :=
  watching WatchImageAssurance (fun err => err)
    (watching WatchImageSet (failed_to_watch "ImageSet")
       (watching WatchNetwork (failed_to_watch "Tigera network resource")
          (watching_each [PGConfigMapName K]
             (fun cm => WatchConfigMap (in_operator_namespace cm))
             (fun cm => failed_to_watch ("ConfigMap " +:+ cm))
             (watching_each
                [PGCertSecretName K; ManagerCertSecretName; APICertSecretName K;
                 PGAdminUserSecretName K; TenantKeyName K]
                (fun s => WatchSecret (in_operator_namespace s))
                (fun s => failed_to_watch ("Secret " +:+ s))
                (watching
                   (WatchSecret (in_image_assurance_namespace (PGUserSecretName K)))
                   (failed_to_watch ("Secret " +:+ PGUserSecretName K))
                   (watching
                      (WatchJob
                         (in_image_assurance_namespace
                            (ResourceNameImageAssuranceDBMigrator K)))
                      (failed_to_watch
                         ("Job " +:+ ResourceNameImageAssuranceDBMigrator K))
                      (watching WatchAuthentication (failed_to_watch "resource")
                         (fun done w => (None, done, w)))))))))
    [].

(** The watch that covers a lookup of a helper. *)
Definition watch_for (site : CallSite) (nn : NamespacedName) : Watched :=
  match site with
  | In_getPGConfig => WatchConfigMap nn
  | In_getMigratorJob => WatchJob nn
  | In_componentsUp => WatchDeployment nn
  | _ => WatchSecret nn
  end.

(** What [add] watches, in the order of its statements. *)
Definition watches : list Watched :=
  [ WatchImageAssurance; WatchImageSet; WatchNetwork;
    WatchConfigMap (in_operator_namespace (PGConfigMapName K));
    WatchSecret (in_operator_namespace (PGCertSecretName K));
    WatchSecret (in_operator_namespace ManagerCertSecretName);
    WatchSecret (in_operator_namespace (APICertSecretName K));
    WatchSecret (in_operator_namespace (PGAdminUserSecretName K));
    WatchSecret (in_operator_namespace (TenantKeyName K));
    WatchSecret (in_image_assurance_namespace (PGUserSecretName K));
    WatchJob (in_image_assurance_namespace (ResourceNameImageAssuranceDBMigrator K));
    WatchAuthentication ].

Definition is_deployment_watch (wt : Watched) : bool :=
  match wt with
  | WatchDeployment _ => true
  | _ => false
  end.

End Reconciler.

(** ** A cluster to run the controller on

    A small in-memory cluster in the manner of controller-runtime's fake
    client, with collaborators that read and write it. *)
Module Fake.

Record Cluster : Type := {
  configMaps : gmap (string * string) ConfigMap;
  secrets : gmap (string * string) Secret;
  jobs : gmap (string * string) Job;
  deployments : gmap (string * string) Deployment;
  imageAssurance : option ImageAssurance;
  authentication : option Authentication;
  available : bool
}.

Definition key_of (nn : NamespacedName) : string * string := (Namespace nn, Name nn).

Definition not_found : error := ApiError true "not found".

Definition lookup_in {A} (m : gmap (string * string) A) (nn : NamespacedName)
    (c : Cluster) : result A * Cluster :=
  (match m !! key_of nn with
   | Some a => Ok a
   | None => Err not_found
   end, c).

Definition K : Consts := {|
  OperatorNamespace := "tigera-operator";
  NameSpaceImageAssurance := "tigera-image-assurance";
  PGConfigMapName := "tigera-image-assurance-postgres";
  PGConfigHostKey := "host";
  PGConfigNameKey := "name";
  PGConfigPortKey := "port";
  PGConfigOrgIDKey := "organizationID";
  PGConfigOrgNameKey := "organizationName";
  PGUserSecretName := "tigera-image-assurance-postgres-user";
  PGAdminUserSecretName := "tigera-image-assurance-postgres-admin";
  PGUserSecretKey := "username";
  PGUserPassKey := "password";
  PGCertSecretName := "tigera-image-assurance-postgres-cert";
  PGServerCAKey := "server-ca";
  PGClientKeyKey := "client-key";
  PGClientCertKey := "client-cert";
  TenantKeyName := "tigera-image-assurance-tenant-key";
  EncryptionKeyName := "encryption_key";
  APICertSecretName := "tigera-image-assurance-api-cert";
  ManagerInternalTLSSecretName := "internal-manager-tls";
  ManagerInternalSecretKeyName := "key";
  ManagerInternalSecretCertName := "cert";
  ResourceNameImageAssuranceAPI := "tigera-image-assurance-api";
  ResourceNameImageAssuranceScanner := "tigera-image-assurance-scanner";
  ResourceNameImageAssuranceCAW := "tigera-image-assurance-caw";
  ResourceNameImageAssuranceDBMigrator := "tigera-image-assurance-db-migrator";
  ComponentImageAssuranceDBMigrator :=
    {| compImage := "tigera/image-assurance-db-migrator"; compVersion := "v1.0.0" |};
  TigeraStatusReady := "Ready";
  OSTypeLinux := "linux";
  DefaultCertificateDuration := 825 * 24 * 3600 * Second
|}.

Definition store_secret (c : Cluster) (s : Secret) : Cluster :=
  {| configMaps := configMaps c;
     secrets := <[key_of (secName s) := s]> (secrets c);
     jobs := jobs c;
     deployments := deployments c;
     imageAssurance := imageAssurance c;
     authentication := authentication c;
     available := available c |}.

Definition X : @Collaborators Cluster unit unit unit := {|
  clientGetConfigMap := fun nn c => lookup_in (configMaps c) nn c;
  clientGetSecret := fun nn c => lookup_in (secrets c) nn c;
  clientGetJob := fun nn c => lookup_in (jobs c) nn c;
  clientGetDeployment := fun nn c => lookup_in (deployments c) nn c;
  clientStatusUpdate := fun ia c =>
    (None,
     {| configMaps := configMaps c;
        secrets := secrets c;
        jobs := jobs c;
        deployments := deployments c;
        imageAssurance := Some ia;
        authentication := authentication c;
        available := available c |});
  GetImageAssurance := fun c =>
    (match imageAssurance c with
     | Some ia => Ok ia
     | None => Err not_found
     end, c);
  GetInstallation := fun c =>
    (Ok (tt, {| Registry := "some.registry.org/"; ImagePath := ""; ImagePrefix := "" |}), c);
  GetNetworkingPullSecrets := fun _ c => (Ok [], c);
  ValidateCertPair := fun ns name _ _ c =>
    (match secrets c !! (ns, name) with
     | Some s => Ok (Some s)
     | None => Ok None
     end, c);
  EnsureCertificateSecret := fun name secret keyName certName _ _ c =>
    (match secret with
     | Some s => Ok s
     | None =>
         Ok {| secName := {| Name := name; Namespace := "tigera-operator" |};
               secData := {[ keyName := bytes_of_string "private-key";
                             certName := bytes_of_string "cert" ]} |}
     end, c);
  RandomPassword := fun _ c => (Ok "0123456789abcdef", c);
  GetAuthentication := fun c =>
    (match authentication c with
     | Some cr => (Some cr, None)
     | None => (None, Some not_found)
     end, c);
  GetKeyValidatorConfig := fun _ _ c => (Ok tt, c);
  CreateOrUpdateOrDelete := fun _ component c =>
    (None,
     match component with
     | NewPassthrough objs => fold_left store_secret objs c
     | ImageAssuranceComponent _ => c
     end);
  GetImageSet := fun _ c => (Ok None, c);
  ValidateImageSet := fun _ => None;
  ApplyImageSet := fun _ _ c => (None, c);
  GetReference := fun comp registry imagePath imagePrefix _ =>
    Ok (registry +:+ imagePath +:+ imagePrefix +:+ compImage comp +:+ ":" +:+ compVersion comp);
  GetServiceDNSNames := fun svc ns domain =>
    [svc; svc +:+ "." +:+ ns; svc +:+ "." +:+ ns +:+ ".svc." +:+ domain];
  IsAvailable := fun c => (available c, c);
  sprintJobStatus := fun _ => "{...}"
|}.

Definition clusterDomain : string := "cluster.local".

Definition in_operator_ns (name : string) : NamespacedName :=
  {| Name := name; Namespace := OperatorNamespace K |}.

Definition in_ia_ns (name : string) : NamespacedName :=
  {| Name := name; Namespace := NameSpaceImageAssurance K |}.

Definition secret_of (nn : NamespacedName) (fields : list (string * string)) : Secret :=
  {| secName := nn;
     secData := list_to_map (map (fun kv => (fst kv, bytes_of_string (snd kv))) fields) |}.

Definition pgConfig_complete : ConfigMap :=
  {| cmName := in_operator_ns (PGConfigMapName K);
     cmData := {[ "host" := "some.domain.io"; "name" := "my-database"; "port" := "1234";
                  "organizationID" := "org1"; "organizationName" := "org one" ]} |}.

(** The config map of the controller's test, which has no organization. *)
Definition pgConfig_without_org : ConfigMap :=
  {| cmName := in_operator_ns (PGConfigMapName K);
     cmData := {[ "host" := "some.domain.io"; "name" := "my-database"; "port" := "1234" ]} |}.

Definition the_secrets : gmap (string * string) Secret :=
  list_to_map
    (map (fun s => (key_of (secName s), s))
       [ secret_of (in_ia_ns (PGUserSecretName K))
           [("username", "org1_user"); ("password", "my-secret-pass")];
         secret_of (in_operator_ns (PGAdminUserSecretName K))
           [("username", "admin"); ("password", "admin-pass")];
         secret_of (in_operator_ns (PGCertSecretName K))
           [("server-ca", "server-ca"); ("client-cert", "client-cert");
            ("client-key", "client-key")];
         secret_of (in_operator_ns (ManagerInternalTLSSecretName K))
           [("cert", "cert"); ("key", "private-key")];
         secret_of (in_operator_ns (TenantKeyName K)) [("encryption_key", "0123")] ]).

Definition current_image : string :=
  "some.registry.org/tigera/image-assurance-db-migrator:v1.0.0".

Definition migrator (image : list string) (succeeded failed : Z) : Job :=
  {| Containers := map (fun i => {| Image := i |}) image;
     Status := {| Succeeded := succeeded; Failed := failed |} |}.

Definition api_deployment : gmap (string * string) Deployment :=
  {[ key_of (in_ia_ns (ResourceNameImageAssuranceAPI K)) :=
       {| depName := in_ia_ns (ResourceNameImageAssuranceAPI K) |} ]}.

Definition cluster (cm : ConfigMap) (job : option Job)
    (deps : gmap (string * string) Deployment) (auth : option Authentication)
    (avail : bool) : Cluster :=
  {| configMaps := {[ key_of (cmName cm) := cm ]};
     secrets := the_secrets;
     jobs :=
       match job with
       | Some j => {[ key_of (in_ia_ns (ResourceNameImageAssuranceDBMigrator K)) := j ]}
       | None => ∅
       end;
     deployments := deps;
     imageAssurance := Some {| iaName := "tigera-secure"; iaState := "" |};
     authentication := auth;
     available := avail |}.

(** The migrator job succeeded with the current image; nothing is deployed yet. *)
Definition migrated : Cluster :=
  cluster pgConfig_complete (Some (migrator [current_image] 1 0)) ∅ None true.

Definition migrated_unavailable : Cluster :=
  cluster pgConfig_complete (Some (migrator [current_image] 1 0)) ∅ None false.

Definition without_org : Cluster :=
  cluster pgConfig_without_org (Some (migrator [current_image] 1 0)) ∅ None true.

Definition without_job : Cluster := cluster pgConfig_complete None ∅ None true.

Definition job_failed : Cluster :=
  cluster pgConfig_complete (Some (migrator [current_image] 0 1)) ∅ None true.

Definition job_failed_components_up : Cluster :=
  cluster pgConfig_complete (Some (migrator [current_image] 0 1)) api_deployment None true.

Definition old_job_components_up : Cluster :=
  cluster pgConfig_complete
    (Some (migrator ["some.registry.org/tigera/image-assurance-db-migrator:v0.9.0"] 1 0))
    api_deployment None true.

Definition job_without_containers : Cluster :=
  cluster pgConfig_complete (Some (migrator [] 1 0)) ∅ None true.


(** The local variables of an attempt on these clusters at line 336. *)
Definition applied (needs up : bool) (job : option Job) : Applied :=
  {| the_ia := {| iaName := "tigera-secure"; iaState := "" |};
     the_needsMigrating := needs;
     the_componentsUp := up;
     the_migratorJob := job |}.

Definition the_installation : InstallationSpec :=
  {| Registry := "some.registry.org/"; ImagePath := ""; ImagePrefix := "" |}.

(** Collaborators whose image reference cannot be computed. *)
Definition X_without_reference : @Collaborators Cluster unit unit unit := {|
  clientGetConfigMap := clientGetConfigMap X;
  clientGetSecret := clientGetSecret X;
  clientGetJob := clientGetJob X;
  clientGetDeployment := clientGetDeployment X;
  clientStatusUpdate := clientStatusUpdate X;
  GetImageAssurance := GetImageAssurance X;
  GetInstallation := GetInstallation X;
  GetNetworkingPullSecrets := GetNetworkingPullSecrets X;
  ValidateCertPair := ValidateCertPair X;
  EnsureCertificateSecret := EnsureCertificateSecret X;
  RandomPassword := RandomPassword X;
  GetAuthentication := GetAuthentication X;
  GetKeyValidatorConfig := GetKeyValidatorConfig X;
  CreateOrUpdateOrDelete := CreateOrUpdateOrDelete X;
  GetImageSet := GetImageSet X;
  ValidateImageSet := ValidateImageSet X;
  ApplyImageSet := ApplyImageSet X;
  GetReference := fun _ _ _ _ _ => Err (ApiError false "no image in the image set");
  GetServiceDNSNames := GetServiceDNSNames X;
  IsAvailable := IsAvailable X;
  sprintJobStatus := sprintJobStatus X
|}.


(** The postgres user secret has not been made yet. *)
Definition without_user_secret : Cluster :=
  {| configMaps := configMaps migrated;
     secrets := delete (key_of (in_ia_ns (PGUserSecretName K))) the_secrets;
     jobs := jobs migrated;
     deployments := deployments migrated;
     imageAssurance := imageAssurance migrated;
     authentication := authentication migrated;
     available := available migrated |}.

(** What the attempt on [migrated] hands to the renderer. *)
Definition rendered : @Config unit :=
  {| PullSecrets := [];
     Installation := the_installation;
     OsType := "linux";
     PGConfig := pgConfig_complete;
     PGAdminUserSecret :=
       secret_of (in_operator_ns (PGAdminUserSecretName K))
         [("username", "admin"); ("password", "admin-pass")];
     PGCertSecret :=
       secret_of (in_operator_ns (PGCertSecretName K))
         [("server-ca", "server-ca"); ("client-cert", "client-cert");
          ("client-key", "client-key")];
     PGUserSecret :=
       secret_of (in_ia_ns (PGUserSecretName K))
         [("username", "org1_user"); ("password", "my-secret-pass")];
     TLSSecret :=
       {| secName := in_operator_ns (APICertSecretName K);
          secData := {[ TLSPrivateKeyKey := bytes_of_string "private-key";
                        TLSCertKey := bytes_of_string "cert" ]} |};
     InternalMgrSecret :=
       secret_of (in_operator_ns (ManagerInternalTLSSecretName K))
         [("cert", "cert"); ("key", "private-key")];
     NeedsMigrating := false;
     ComponentsUp := false;
     KeyValidatorConfig_ := tt;
     TenantKey := secret_of (in_operator_ns (TenantKeyName K)) [("encryption_key", "0123")] |}.

Definition ManagerCertSecretName : string := "manager-tls".

(** A manager on which every watch can be registered. *)
Definition startWatch (wt : Watched) (c : Cluster) : option error * Cluster := (None, c).

(** A manager that knows no jobs. *)
Definition startWatch_without_jobs (wt : Watched) (c : Cluster) : option error * Cluster :=
  (match wt with
   | WatchJob _ => Some (ApiError false "no kind is registered for the type Job")
   | _ => None
   end, c).

End Fake.

End Controller.

(** * The configuration syncer *)

Module ConfigSync.

(** [operatortime.Ticker] values, numbered in the order [tickerCreator]
    makes them. *)
Definition Ticker : Type := nat.

(** What travels on [apiChan].  A [getErrRequest] carries the channel it is
    answered on; these are numbered in the order [Error] makes them. *)
Inductive Request : Type :=
| startSyncRequest
| getErrRequest (errChan : nat).

(** A Go channel of requests: its buffer, oldest first, or closed. *)
Inductive Chan : Type :=
| Open (buf : list Request)
| Closed.

(** [make(chan interface{}, 1)] in [NewSyncer]. *)
Definition apiChan_capacity : nat := 1.

(** A send statement [ch <- v]. *)
Inductive Sending : Type :=
| Delivered (ch : Chan)
| MustWait
| SendPanics.

Definition send (ch : Chan) (v : Request) : Sending :=
  match ch with
  | Closed => SendPanics
  | Open buf =>
      if (length buf <? apiChan_capacity)%nat then Delivered (Open (buf ++ [v])%list) else MustWait
  end.

(** How a call by the driver proceeds. *)
Inductive Called : Type :=
| Returns (ch : Chan)
| Blocks
| Panics.

(** [StartPeriodicSync] (lines 108-113): a send that takes the [default]
    case when it cannot proceed. *)
Definition StartPeriodicSync (apiChan : Chan) : Called :=
  match send apiChan startSyncRequest with
  | Delivered ch => Returns ch
  | MustWait => Returns apiChan
  | SendPanics => Panics
  end.

(** [Error] (lines 115-120) up to its send; the reply comes on [errChan]. *)
Definition Error_send (apiChan : Chan) (errChan : nat) : Called :=
  match send apiChan (getErrRequest errChan) with
  | Delivered ch => Returns ch
  | MustWait => Blocks
  | SendPanics => Panics
  end.

(** The local variables of [run]. *)
Record Loop : Type := {
  ticker : option Ticker;
  tickerCh : option Ticker;
  err : option error
}.

(** What [run] does to the outside, newest first in a log. *)
Inductive Effect : Type :=
| Synced (e : option error)
| TickerCreated (t : Ticker)
| TickerStopped (t : Ticker)
| Replied (errChan : nat) (e : option error)
| ErrChanClosed (errChan : nat)
| DoneClosed
| ApiChanClosed.

(** The case the [select] of [run] takes, with what it received. *)
Inductive Selected : Type :=
| RecvApi (req : Request)
| RecvTicker (ok : bool)
| CtxDone.

Inductive Next : Type :=
| Again (l : Loop)
| Finished.

Section Syncer.

Context {World : Type}.

(** [s.syncConfigMap()] (lines 187-228) reads and writes the cluster and
    asks the remote API; [run] uses the error it returns and nothing else. *)
Variable syncConfigMap : World -> option error * World.

Record Env : Type := {
  cluster : World;
  created : nat;
  running : gset Ticker;
  effects : list Effect
}.

Definition record (e : Effect) (env : Env) : Env :=
  {| cluster := cluster env;
     created := created env;
     running := running env;
     effects := e :: effects env |}.

Definition sync (env : Env) : option error * Env :=
  let '(e, w) := syncConfigMap (cluster env) in
  (e, {| cluster := w;
         created := created env;
         running := running env;
         effects := Synced e :: effects env |}).

(** [s.tickerCreator(s.reSyncDuration)]. *)
Definition tickerCreator (env : Env) : Ticker * Env :=
  let t := created env in
  (t, {| cluster := cluster env;
         created := S t;
         running := {[ t ]} ∪ running env;
         effects := TickerCreated t :: effects env |}).

(** [ticker.Stop()]. *)
Definition Stop (t : Ticker) (env : Env) : Env :=
  {| cluster := cluster env;
     created := created env;
     running := running env ∖ {[ t ]};
     effects := TickerStopped t :: effects env |}.

(** One turn of the loop of [run] (lines 137-184). *)
Definition iteration (l : Loop) (sel : Selected) (env : Env) : Next * Env :=
  match sel with
  | RecvApi startSyncRequest =>
      match ticker l with
      | Some _ => (Again l, env)
      | None =>
          let '(e, env) := sync env in
          let l := {| ticker := ticker l; tickerCh := tickerCh l; err := e |} in
          match ticker l with
          | None =>
              let '(t, env) := tickerCreator env in
              (Again {| ticker := Some t; tickerCh := Some t; err := err l |}, env)
          | Some _ => (Again l, env)
          end
      end
  | RecvApi (getErrRequest errChan) =>
      (Again l, record (ErrChanClosed errChan) (record (Replied errChan (err l)) env))
  | RecvTicker false =>
      let env :=
        match ticker l with
        | Some t => Stop t env
        | None => env
        end in
      (Again {| ticker := None; tickerCh := None; err := err l |}, env)
  | RecvTicker true =>
      let '(e, env) := sync env in
      (Again {| ticker := ticker l; tickerCh := tickerCh l; err := e |}, env)
  | CtxDone => (Finished, env)
  end.

(** The deferred calls of [run] (lines 128-134), in the order they run. *)
Definition deferred (l : Loop) (env : Env) : Env :=
  let env := record DoneClosed env in
  let env := record ApiChanClosed env in
  match ticker l with
  | Some t => Stop t env
  | None => env
  end.

(** The syncer with its driver: the mailbox, the goroutine of [run] ([None]
    once it returned), whether the context is cancelled, and how many reply
    channels [Error] has made. *)
Record Sys : Type := {
  apiChan : Chan;
  loop : option Loop;
  env : Env;
  cancelled : bool;
  errChans : nat
}.

(** [NewSyncer] (lines 81-103). *)
Definition NewSyncer (w : World) : Sys :=
  {| apiChan := Open [];
     loop := Some {| ticker := None; tickerCh := None; err := None |};
     env := {| cluster := w; created := 0; running := ∅; effects := [] |};
     cancelled := false;
     errChans := 0 |}.

(** What can happen next: the driver calls the syncer or cancels its
    context, or the [select] of [run] takes one of its cases. *)
Inductive Action : Type :=
| Call_StartPeriodicSync
| Call_Error
| Cancel
| Select_apiChan
| Select_tickerCh (ok : bool)
| Select_ctxDone.

Definition turn (s : Sys) (l : Loop) (sel : Selected) (ch : Chan) : Sys :=
  match iteration l sel (env s) with
  | (Again l', env') =>
      {| apiChan := ch; loop := Some l'; env := env';
         cancelled := cancelled s; errChans := errChans s |}
  | (Finished, env') =>
      {| apiChan := Closed; loop := None; env := deferred l env';
         cancelled := cancelled s; errChans := errChans s |}
  end.

(** One action; [None] when it cannot take place: the call blocks or
    panics, or the case of the [select] is not ready. *)
Definition step (s : Sys) (a : Action) : option Sys :=
  match a with
  | Call_StartPeriodicSync =>
      match StartPeriodicSync (apiChan s) with
      | Returns ch =>
          Some {| apiChan := ch; loop := loop s; env := env s;
                  cancelled := cancelled s; errChans := errChans s |}
      | Blocks => None
      | Panics => None
      end
  | Call_Error =>
      match Error_send (apiChan s) (errChans s) with
      | Returns ch =>
          Some {| apiChan := ch; loop := loop s; env := env s;
                  cancelled := cancelled s; errChans := S (errChans s) |}
      | Blocks => None
      | Panics => None
      end
  | Cancel =>
      Some {| apiChan := apiChan s; loop := loop s; env := env s;
              cancelled := true; errChans := errChans s |}
  | Select_apiChan =>
      match loop s, apiChan s with
      | Some l, Open (req :: rest) => Some (turn s l (RecvApi req) (Open rest))
      | _, _ => None
      end
  | Select_tickerCh ok =>
      match loop s with
      | Some l =>
          match tickerCh l with
          | Some _ => Some (turn s l (RecvTicker ok) (apiChan s))
          | None => None
          end
      | None => None
      end
  | Select_ctxDone =>
      match loop s with
      | Some l => if cancelled s then Some (turn s l CtxDone (apiChan s)) else None
      | None => None
      end
  end.

Fixpoint exec (s : Sys) (acts : list Action) : option Sys :=
  match acts with
  | [] => Some s
  | a :: rest =>
      match step s a with
      | Some s' => exec s' rest
      | None => None
      end
  end.

(** The states a syncer made by [NewSyncer] can be in. *)
Definition reachable (s : Sys) : Prop :=
  exists w acts, exec (NewSyncer w) acts = Some s.

(** The error of the most recent synchronization in a log. *)
Fixpoint last_sync (log : list Effect) : option error :=
  match log with
  | [] => None
  | Synced e :: _ => e
  | _ :: earlier => last_sync earlier
  end.


(** The tickers that may be running while [run] is in state [l]. *)
Definition tickers_of (l : option Loop) : gset Ticker :=
  match l with
  | Some {| ticker := Some t |} => {[ t ]}
  | _ => ∅
  end.

(** Every reply in the log carries the error of the most recent
    synchronization before it. *)
Definition replies_current (log : list Effect) : Prop :=
  forall later errChan e earlier,
    log = (later ++ Replied errChan e :: earlier)%list -> e = last_sync earlier.

(** What holds of every reachable state. *)
Record invariant (s : Sys) : Prop := {
  inv_mailbox :
    forall l, loop s = Some l ->
      exists buf, apiChan s = Open buf /\ (length buf <= apiChan_capacity)%nat;
  inv_channel : forall l, loop s = Some l -> tickerCh l = ticker l;
  inv_running : running (env s) = tickers_of (loop s);
  inv_fresh :
    forall l t, loop s = Some l -> ticker l = Some t -> (t < created (env s))%nat;
  inv_err : forall l, loop s = Some l -> err l = last_sync (effects (env s));
  inv_replies : replies_current (effects (env s))
}.

(** ** The end of [run], and the order of its effects *)

(** The effect is a send on reply channel [c], or its close. *)
Definition names (c : nat) (e : Effect) : bool :=
  match e with
  | Replied c' _ => (c' =? c)%nat
  | ErrChanClosed c' => (c' =? c)%nat
  | _ => false
  end.

(** The effect is one of the two closes that [run] defers. *)
Definition closes (e : Effect) : bool :=
  match e with
  | DoneClosed => true
  | ApiChanClosed => true
  | _ => false
  end.

(** The reply channels of the requests that wait in the mailbox. *)
Definition asked (ch : Chan) : list nat :=
  match ch with
  | Open buf =>
      flat_map (fun req => match req with
                           | getErrRequest c => [c]
                           | startSyncRequest => []
                           end) buf
  | Closed => []
  end.

(** Every reply channel in the log was sent on once, was closed right
    after, and was not touched before or since. *)
Definition answered_once (log : list Effect) : Prop :=
  forall later c e earlier,
    log = (later ++ Replied c e :: earlier)%list ->
    existsb (names c) earlier = false /\
    exists later', later = (later' ++ [ErrChanClosed c])%list /\
                   existsb (names c) later' = false.

(** Every ticker in the log was created right after a synchronization. *)
Definition synced_before_ticking (log : list Effect) : Prop :=
  forall later t earlier,
    log = (later ++ TickerCreated t :: earlier)%list ->
    exists e earlier', earlier = Synced e :: earlier'.

(** The log ends with what [run] defers: [done] is closed, then [apiChan],
    then the ticker is stopped if there is one; nothing was closed before. *)
Definition wound_up (log : list Effect) : Prop :=
  exists earlier,
    existsb closes earlier = false /\
    (log = ApiChanClosed :: DoneClosed :: earlier \/
     exists t, log = TickerStopped t :: ApiChanClosed :: DoneClosed :: earlier).

(** More of what holds of every reachable state. *)
Record finality (s : Sys) : Prop := {
  fin_cancelled : loop s = None -> cancelled s = true;
  fin_closed : loop s = None -> apiChan s = Closed;
  fin_wound_up : loop s = None -> wound_up (effects (env s));
  fin_open : forall l, loop s = Some l -> existsb closes (effects (env s)) = false;
  fin_synced : synced_before_ticking (effects (env s));
  fin_asked :
    forall c, In c (asked (apiChan s)) ->
      (c < errChans s)%nat /\ existsb (names c) (effects (env s)) = false;
  fin_named :
    forall c, (errChans s <= c)%nat -> existsb (names c) (effects (env s)) = false;
  fin_once : answered_once (effects (env s))
}.

End Syncer.

(** A remote API that fails the first synchronization and then succeeds;
    the world counts the synchronizations. *)
Definition flaky_sync (n : nat) : option error * nat :=
  (match n with
   | O => Some (Errorf "API token not available")
   | S _ => None
   end, S n).

(** ** Runs of that syncer *)

(** Twice [StartPeriodicSync] before the loop takes anything, then once
    more after it started the ticker. *)
Definition started_thrice : list Action :=
  [Call_StartPeriodicSync; Call_StartPeriodicSync; Select_apiChan; Call_StartPeriodicSync].


(** The loop is started and its mailbox is empty. *)
Definition started_once : list Action := [Call_StartPeriodicSync; Select_apiChan].

(** The context is cancelled while the ticker runs, and [run] returns. *)
Definition started_then_cancelled : list Action :=
  [Call_StartPeriodicSync; Select_apiChan; Cancel; Select_ctxDone].

(** [Error] is called twice around the first synchronization. *)
Definition asked_twice : list Action :=
  [Call_Error; Select_apiChan; Call_StartPeriodicSync; Select_apiChan; Call_Error;
   Select_apiChan].




(** ** One synchronization *)

(** [strconv.FormatBool]. *)
Definition FormatBool (b : bool) : string := if b then "true" else "false".

(** [*corev1.ConfigMap] as [syncConfigMap] uses it: [Data], which is the
    nil map when the config map has no data. *)
Record Configuration : Type := { Data : option (gmap string string) }.

(** [bastapi.Organization]; [RuntimeViewEnabled] is
    [Settings.RuntimeViewEnabled]. *)
Record Organization : Type := { RuntimeViewEnabled : bool }.

(** [m[key]]: the zero value when the key is absent or the map nil. *)
Definition index (m : option (gmap string string)) (key : string) : string :=
  match m with
  | Some d => default "" (d !! key)
  | None => ""
  end.

(** What one synchronization did outside, newest first in a log. *)
Inductive Did : Type :=
| GotConfiguration (r : result Configuration)
| GotToken (serviceAccount : string) (r : result bytes)
| GotSecret (key : NamespacedName) (r : result Secret)
| AskedOrganization (rootCAs : bytes) (endpoint token orgID : string)
    (r : result Organization)
| Updated (cm : Configuration) (err : option error).

Definition is_update (d : Did) : bool :=
  match d with
  | Updated _ _ => true
  | _ => false
  end.

(** [fmt.Errorf("<what>: %w", err)]; what is modelled of the error is its
    message. *)
Definition wrapped (what : string) (err : error) : error :=
  Errorf (what +:+ ": " +:+ Error err).

Section SyncConfigMap.

Context {World : Type}.

(** The constants [imageassurance.OperatorAPIAccessServiceAccountName],
    [imageassurance.APICertSecretName], [common.OperatorNamespace()] and
    [rcimageassurance.ConfigurationConfigMapOrgIDKey]. *)
Record Names : Type := {
  OperatorAPIAccessServiceAccountName : string;
  APICertSecretName : string;
  OperatorNamespace : string;
  ConfigurationConfigMapOrgIDKey : string
}.

(** What [syncConfigMap] calls: the [utils] package, the client, and the
    [bastapi] client made by [bastClientCreator] from the root
    certificates, the endpoint and the token. *)
Record Outside : Type := {
  GetImageAssuranceConfigurationConfigMap : World -> result Configuration * World;
  GetImageAssuranceAPIAccessToken : string -> World -> result bytes * World;
  clientGet : NamespacedName -> World -> result Secret * World;
  clientUpdate : Configuration -> World -> option error * World;
  GetOrganization : bytes -> string -> string -> string -> World -> result Organization * World
}.

Variable N : Names.
Variable O : Outside.

(** [syncer.endpoint]. *)
Variable endpoint : string.

Record Ran : Type := {
  world : World;
  calls : list Did
}.

Definition Sync (R A : Type) : Type := Ran -> Outcome R A * Ran.

Definition pure {R A} (a : A) : Sync R A := fun st => (Continue a, st).

Definition andThen {R A B} (m : Sync R A) (k : A -> Sync R B) : Sync R B :=
  fun st =>
    match m st with
    | (Continue a, st') => k a st'
    | (Return r, st') => (Return r, st')
    | (Panic, st') => (Panic, st')
    end.

Definition returning {R A} (r : R) : Sync R A := fun st => (Return r, st).

Definition panicking {R A} : Sync R A := fun st => (Panic, st).

(** A call outside, recorded with its answer. *)
Definition doing {R A} (c : World -> A * World) (what : A -> Did) : Sync R A :=
  fun st =>
    let '(a, w) := c (world st) in
    (Continue a, {| world := w; calls := what a :: calls st |}).

Declare Scope sync_scope.
Delimit Scope sync_scope with sync.
Notation "x <- m ;; k" := (andThen m (fun x => k))
  (at level 63, m at next level, right associativity) : sync_scope.
Local Open Scope sync_scope.

(** [getAPICertificate] (lines 231-243).  A secret without the field gives
    no bytes and no error. *)
Definition getAPICertificate {R} : Sync R (result bytes) :=
  let secretNamespacedName :=
    {| Name := APICertSecretName N; Namespace := OperatorNamespace N |} in
  r <- doing (clientGet O secretNamespacedName) (GotSecret secretNamespacedName) ;;
  match r with
  | Err err => pure (Err err)
  | Ok secret => pure (Ok (default [] (secData secret !! Controller.TLSCertKey)))
  end.

(** [syncConfigMap] (lines 187-228).  The assignment to an entry of the nil
    map panics. *)
Definition syncConfigMap : Sync (option error) (option error) :=
  r <- doing (GetImageAssuranceConfigurationConfigMap O) GotConfiguration ;;
  configurationConfigMap <-
    match r with
    | Err err =>
        returning (Some (wrapped "failed to retrieve image assurance configuration" err))
    | Ok cm => pure cm
    end ;;
  r <- doing (GetImageAssuranceAPIAccessToken O (OperatorAPIAccessServiceAccountName N))
         (GotToken (OperatorAPIAccessServiceAccountName N)) ;;
  apiToken <-
    match r with
    | Err err => returning (Some (wrapped "failed to retrieve API token" err))
    | Ok apiToken =>
        if (length apiToken =? 0)%nat
        then returning (Some (Errorf "API token not available"))
        else pure apiToken
    end ;;
  r <- getAPICertificate ;;
  certBytes <-
    match r with
    | Err err =>
        returning (Some (wrapped "failed to get Image Assurance API certificate" err))
    | Ok certBytes => pure certBytes
    end ;;
  let token := String.string_of_list_byte apiToken in
  let orgID := index (Data configurationConfigMap) (ConfigurationConfigMapOrgIDKey N) in
  r <- doing (GetOrganization O certBytes endpoint token orgID)
         (AskedOrganization certBytes endpoint token orgID) ;;
  org <-
    match r with
    | Err err => returning (Some (wrapped "failed to get organization settings" err))
    | Ok org => pure org
    end ;;
  data <-
    match Data configurationConfigMap with
    | None => panicking
    | Some data =>
        pure (<["runtimeViewEnabled" := FormatBool (RuntimeViewEnabled org)]> data)
    end ;;
  let configurationConfigMap := {| Data := Some data |} in
  e <- doing (clientUpdate O configurationConfigMap) (Updated configurationConfigMap) ;;
  match e with
  | Some err =>
      returning (Some (wrapped "failed to update Image Assurance configuration" err))
  | None => returning None
  end.

(** One synchronization, started in world [w] with an empty log. *)
Definition synchronization (w : World) : Outcome (option error) (option error) * Ran :=
  syncConfigMap {| world := w; calls := [] |}.

End SyncConfigMap.

(** ** A cluster and an API to synchronize *)

Module Remote.

(** The configuration config map in the cluster, the token, the secret of
    the API certificate, and the setting the API would report. *)
Record State : Type := {
  configuration : option Configuration;
  token : bytes;
  certificate : option Secret;
  enabled : bool
}.

Definition N : Names := {|
  OperatorAPIAccessServiceAccountName := "tigera-image-assurance-operator-api-access";
  APICertSecretName := "tigera-image-assurance-api-cert";
  OperatorNamespace := "tigera-operator";
  ConfigurationConfigMapOrgIDKey := "organizationID"
|}.

Definition O : @Outside State := {|
  GetImageAssuranceConfigurationConfigMap := fun st =>
    (match configuration st with
     | Some cm => Ok cm
     | None => Err (ApiError true "not found")
     end, st);
  GetImageAssuranceAPIAccessToken := fun _ st => (Ok (token st), st);
  clientGet := fun _ st =>
    (match certificate st with
     | Some s => Ok s
     | None => Err (ApiError true "not found")
     end, st);
  clientUpdate := fun cm st =>
    (None, {| configuration := Some cm; token := token st;
              certificate := certificate st; enabled := enabled st |});
  GetOrganization := fun _ _ _ orgID st =>
    (if String.eqb orgID "org1"
     then Ok {| RuntimeViewEnabled := enabled st |}
     else Err (ApiError true "no such organization"), st)
|}.

Definition endpoint : string := "https://ia-api.example.com".

Definition api_cert : Secret :=
  {| secName := {| Name := "tigera-image-assurance-api-cert"; Namespace := "tigera-operator" |};
     secData := {[ "tls.crt" := bytes_of_string "cert"; "tls.key" := bytes_of_string "key" ]} |}.

(** The organization is known and the runtime view is enabled. *)
Definition ready : State :=
  {| configuration := Some {| Data := Some {[ "organizationID" := "org1" ]} |};
     token := bytes_of_string "token";
     certificate := Some api_cert;
     enabled := true |}.

(** The token has not been propagated yet. *)
Definition without_token : State :=
  {| configuration := configuration ready;
     token := [];
     certificate := certificate ready;
     enabled := enabled ready |}.

(** An API that answers for every organization id, and a config map
    without data. *)
Definition O_lenient : @Outside State := {|
  GetImageAssuranceConfigurationConfigMap := GetImageAssuranceConfigurationConfigMap O;
  GetImageAssuranceAPIAccessToken := GetImageAssuranceAPIAccessToken O;
  clientGet := clientGet O;
  clientUpdate := clientUpdate O;
  GetOrganization := fun _ _ _ _ st => (Ok {| RuntimeViewEnabled := enabled st |}, st)
|}.

Definition without_data : State :=
  {| configuration := Some {| Data := None |};
     token := token ready;
     certificate := certificate ready;
     enabled := enabled ready |}.

End Remote.

End ConfigSync.

(** * Properties of the reconciler *)

Module ControllerProofs.

Import Controller.

Section Properties.

Context {World KeyValidatorConfig ImageSet Variant : Type}.
Variable K : Consts.
Variable X : @Collaborators World KeyValidatorConfig ImageSet Variant.
Variable clusterDomain : string.

Abbreviation St := (@St World KeyValidatorConfig).
Abbreviation M := (@M World KeyValidatorConfig).
Abbreviation Call := (@Call World).
Abbreviation Event := (@Event KeyValidatorConfig).

(** ** Rules for weakest preconditions *)

Lemma wp_mono {R A} (m : M R A) (P Q : Outcome R A -> St -> Prop) st :
  wp m P st -> (forall o st', P o st' -> Q o st') -> wp m Q st.
Proof. unfold wp. auto. Qed.

Lemma wp_bind {R A B} (m : M R A) (k : A -> M R B) Q st :
  wp m (then_ k Q) st -> wp (bind m k) Q st.
Proof.
  unfold wp, then_, bind.
  destruct (m st) as [[a|r|] st']; simpl; auto.
Qed.

Lemma wp_ret {R A} (a : A) (Q : Outcome R A -> St -> Prop) st :
  Q (Continue a) st -> wp (ret a) Q st.
Proof. auto. Qed.

Lemma wp_return {R A} (r : R) (Q : Outcome R A -> St -> Prop) st :
  Q (Return r) st -> wp (return_ r) Q st.
Proof. auto. Qed.

Lemma wp_panic {R A} (Q : Outcome R A -> St -> Prop) st :
  Q Panic st -> wp panic Q st.
Proof. auto. Qed.

Lemma wp_emit {R} e (Q : Outcome R unit -> St -> Prop) w tr :
  Q (Continue tt) {| world := w; trace := e :: tr |} ->
  wp (emit e) Q {| world := w; trace := tr |}.
Proof. auto. Qed.

Lemma wp_call {R A} (c : Call A) (Q : Outcome R A -> St -> Prop) w tr :
  (forall a w', Q (Continue a) {| world := w'; trace := tr |}) ->
  wp (call c) Q {| world := w; trace := tr |}.
Proof.
  intros H. unfold wp, call. simpl.
  destruct (c w) as [a w']. simpl. auto.
Qed.

Lemma wp_invoke {R A} (body : M A A) (Q : Outcome R A -> St -> Prop) st :
  wp body (called Q) st -> wp (invoke body) Q st.
Proof.
  unfold wp, called, invoke.
  destruct (body st) as [[a|r|] st']; simpl; auto.
Qed.

Lemma then_continue {R A B} (k : A -> M R B) Q a st :
  wp (k a) Q st -> then_ k Q (Continue a) st.
Proof. auto. Qed.

Ltac head_of t :=
  lazymatch t with
  | ?f _ => head_of f
  | _ => t
  end.

(** One step of symbolic execution of the statement at the head. *)
Ltac wp_head m :=
  lazymatch m with
  | bind _ _ => apply wp_bind
  | ret _ => apply wp_ret
  | return_ _ => apply wp_return
  | panic => apply wp_panic
  | emit _ => apply wp_emit
  | call _ =>
      apply wp_call;
      let a := fresh "a" in
      intros a ?;
      lazymatch type of a with
      | prod _ _ => destruct a
      | _ => idtac
      end
  | invoke _ => apply wp_invoke
  | when ?b _ => unfold when at 1; destruct b eqn:?
  | match fst (_, _) with _ => _ end => cbn [fst]
  | match snd (_, _) with _ => _ end => cbn [snd]
  | match ?x with _ => _ end => destruct x eqn:?
  | let x := _ in _ => cbv zeta
  | _ => let h := head_of m in unfold h at 1; cbv beta
  end.

Ltac wp_step :=
  lazymatch goal with
  | |- wp ?m _ _ => wp_head m
  | |- then_ _ _ (Continue _) _ => apply then_continue; cbv beta
  | |- then_ _ _ (Return _) _ => unfold then_ at 1; cbv beta iota
  | |- then_ _ _ Panic _ => unfold then_ at 1; cbv beta iota
  | |- called _ _ _ => unfold called at 1; cbv beta iota
  end.

Ltac wp_run := repeat wp_step.

(** ** The helpers *)

Ltac fetched_done :=
  unfold fetched; do 4 eexists; split; [reflexivity|split; [reflexivity|]];
  cbn [as_object]; intros obj Hobj; try discriminate Hobj;
  injection Hobj as <-;
  first
    [ left; eexists; split; [reflexivity|split; [reflexivity|]];
      cbn [required_fields lacks_field]; repeat constructor; assumption
    | right; eexists; split; [|split; [|reflexivity]];
      [cbn [required_fields In]; tauto | cbn [lacks_field]; assumption] ].

Lemma getPGConfig_spec {R} (st : St) :
  wp (invoke (R:=R) (getPGConfig K X)) (fetched K In_getPGConfig ObjConfigMap st) st.
Proof. destruct st as [w tr]. wp_run; cbn [trace]; fetched_done. Qed.

Lemma getOrCreatePGUserSecret_spec {R} orgID (st : St) :
  wp (invoke (R:=R) (getOrCreatePGUserSecret K X orgID))
    (fetched K In_getOrCreatePGUserSecret ObjSecret st) st.
Proof. destruct st as [w tr]. wp_run; cbn [trace]; fetched_done. Qed.

Lemma getAdminPGUserSecret_spec {R} (st : St) :
  wp (invoke (R:=R) (getAdminPGUserSecret K X))
    (fetched K In_getAdminPGUserSecret ObjSecret st) st.
Proof. destruct st as [w tr]. wp_run; cbn [trace]; fetched_done. Qed.

Lemma getPGCertSecret_spec {R} (st : St) :
  wp (invoke (R:=R) (getPGCertSecret K X)) (fetched K In_getPGCertSecret ObjSecret st) st.
Proof. destruct st as [w tr]. wp_run; cbn [trace]; fetched_done. Qed.

Lemma getTenantKey_spec {R} (st : St) :
  wp (invoke (R:=R) (getTenantKey K X)) (fetched K In_getTenantKey ObjSecret st) st.
Proof. destruct st as [w tr]. wp_run; cbn [trace]; fetched_done. Qed.

Lemma getMigratorJob_spec {R} (st : St) :
  wp (invoke (R:=R) (getMigratorJob K X)) (fetched_job st) st.
Proof.
  destruct st as [w tr]. wp_run; cbn [trace]; unfold fetched_job;
    (do 4 eexists; split; [reflexivity|split; [reflexivity|]]);
    cbn [as_object]; intros j Hj; congruence.
Qed.

Lemma componentsUp_spec {R} (st : St) :
  wp (invoke (R:=R) (componentsUp K X)) (looked_up st) st.
Proof.
  destruct st as [w tr]. wp_run; cbn [trace]; unfold looked_up.
  all: do 3 eexists; (split; [reflexivity|split; [reflexivity|]]).
  all: repeat first [apply ext_refl | apply ext_cons; [unfold is_componentsUp_get; eauto|]].
Qed.

Lemma getAPICertSecret_spec {R} (st : St) :
  wp (invoke (R:=R) (getAPICertSecret K X clusterDomain)) (computed st) st.
Proof. destruct st as [w tr]. wp_run; cbn [trace]; unfold computed; eauto. Qed.

Lemma needsMigrating_spec {R} installation imageSet job (st : St) :
  wp (invoke (R:=R) (needsMigrating K X installation imageSet job))
    (computed_or_panicked job st) st.
Proof.
  destruct st as [w tr].
  wp_run; unfold computed_or_panicked; (split; [reflexivity|]); eauto.
  right. split; [reflexivity|]. eexists; split; [reflexivity|].
  destruct (Containers j); [reflexivity|discriminate].
Qed.

Ltac wp_spec lem := eapply wp_mono; [apply lem|]; cbv beta.

(** Symbolic execution that uses what the helpers establish, so that the
    ways through a helper join again behind it. *)
Ltac wp_head_joined m :=
  lazymatch m with
  | invoke (getPGConfig _ _) =>
      wp_spec getPGConfig_spec; intros ? ? (? & ? & ? & ? & -> & -> & ?)
  | invoke (getOrCreatePGUserSecret _ _ _) =>
      wp_spec getOrCreatePGUserSecret_spec; intros ? ? (? & ? & ? & ? & -> & -> & ?)
  | invoke (getAdminPGUserSecret _ _) =>
      wp_spec getAdminPGUserSecret_spec; intros ? ? (? & ? & ? & ? & -> & -> & ?)
  | invoke (getPGCertSecret _ _) =>
      wp_spec getPGCertSecret_spec; intros ? ? (? & ? & ? & ? & -> & -> & ?)
  | invoke (getTenantKey _ _) =>
      wp_spec getTenantKey_spec; intros ? ? (? & ? & ? & ? & -> & -> & ?)
  | invoke (getMigratorJob _ _) =>
      wp_spec getMigratorJob_spec; intros ? ? (? & ? & ? & ? & -> & -> & ?)
  | invoke (componentsUp _ _) =>
      wp_spec componentsUp_spec;
      let Hext := fresh "Hext" in
      intros ? ? (? & ? & ? & -> & -> & Hext); cbn [trace] in Hext
  | invoke (getAPICertSecret _ _ _) =>
      wp_spec getAPICertSecret_spec; intros ? ? (? & ? & -> & ->)
  | invoke (needsMigrating _ _ _ _ _) =>
      wp_spec needsMigrating_spec; intros ? ? (-> & [(? & ->) | (-> & ? & ? & ?)])
  | _ => wp_head m
  end; cbn [trace world].

Ltac wp_step_joined :=
  lazymatch goal with
  | |- wp ?m _ _ => wp_head_joined m
  | |- then_ _ _ (Continue _) _ => apply then_continue; cbv beta
  | |- then_ _ _ (Return _) _ => unfold then_ at 1; cbv beta iota
  | |- then_ _ _ Panic _ => unfold then_ at 1; cbv beta iota
  | |- called _ _ _ => unfold called at 1; cbv beta iota
  end.

Ltac reconcile := repeat wp_step_joined.

(** ** Traces *)

Lemma extends_by_In (P : Event -> Prop) tr tr' e :
  extends_by P tr tr' -> In e tr' -> P e \/ In e tr.
Proof.
  induction 1 as [|e' tr' He' Hext IH]; [auto|].
  intros [<-|Hin]; auto.
Qed.

Lemma extends_by_Forall (P Q : Event -> Prop) tr tr' :
  extends_by P tr tr' -> (forall e, P e -> Q e) -> Forall Q tr -> Forall Q tr'.
Proof. induction 1; auto. Qed.

Lemma complete_not_lacking obj site key :
  Forall (fun key => lacks_field obj key = false) (required_fields K site) ->
  In key (required_fields K site) -> lacks_field obj key = true -> False.
Proof.
  intros Hall Hin Hlack.
  pose proof (proj1 (List.Forall_forall _ _) Hall key Hin). congruence.
Qed.

(** Every event of the trace in the goal is of the wanted kind. *)
Ltac all_events :=
  repeat first
    [ apply List.Forall_nil
    | apply List.Forall_cons; [reflexivity|]
    | eapply extends_by_Forall;
        [eassumption | intros ? (? & ? & <-); reflexivity | ] ].

(** Going through the events of the trace in hypothesis [Hin]. *)
Ltac each_event Hin tac :=
  repeat lazymatch type of Hin with
    | In _ (_ :: _) => destruct Hin as [Hin|Hin]; [tac|]
    | In _ [] => destruct Hin
    | In _ ?tr' =>
        match goal with
        | Hext : extends_by _ _ tr' |- _ =>
            apply (extends_by_In _ _ _ _ Hext) in Hin;
            destruct Hin as [(? & ? & Hin)|Hin]; [tac|]
        end
    end.

(** ** Whole attempts *)

Ltac use_fetched H Hreq Hlack :=
  destruct (H _ eq_refl) as [(? & ? & ? & Hall) | (key' & Hk & Hl & Hr)];
  [ exfalso; exact (complete_not_lacking _ _ _ Hall Hreq Hlack)
  | first
      [ discriminate Hr
      | injection Hr as ->;
        exists key'; split; [exact Hk|split; [exact Hl|split; [reflexivity|split;
          [eexists; reflexivity | all_events]]]] ] ].

Ltac fetched_event Hin Hreq Hlack :=
  first
    [ discriminate Hin
    | injection Hin as <- <- ->;
      lazymatch type of Hreq with
      | In _ (required_fields _ In_getMigratorJob) => destruct Hreq
      | In _ (required_fields _ In_componentsUp) => destruct Hreq
      | _ =>
          match goal with
          | H : forall obj, Ok ?o = Ok obj -> _ |- _ =>
              lazymatch type of Hlack with
              | lacks_field o _ = _ => use_fetched H Hreq Hlack
              end
          end
      end ].

Lemma Reconcile_stops_on_incomplete w :
  wp (Reconcile K X clusterDomain) (stops_on_incomplete K) {| world := w; trace := [] |}.
Proof.
  reconcile.
  all: unfold stops_on_incomplete; cbn [trace]; intros site nn obj key Hin Hreq Hlack.
  all: each_event Hin ltac:(fetched_event Hin Hreq Hlack).
Qed.




Lemma Reconcile_apply_not_yet_ready w :
  wp (Reconcile_apply K X clusterDomain) not_yet_ready {| world := w; trace := [] |}.
Proof.
  reconcile.
  all: unfold not_yet_ready; cbn [trace]; all_events.
Qed.

(** [Reconcile] panics nowhere but in [needsMigrating], on a migrator job
    that it fetched and that has no containers. *)
Lemma Reconcile_panics_only_on_empty_job w :
  wp (Reconcile K X clusterDomain) panics_only_on_empty_job {| world := w; trace := [] |}.
Proof.
  reconcile.
  all: unfold panics_only_on_empty_job; cbn [trace]; intros Hpanic; try discriminate Hpanic.
  all: repeat match goal with
         | H : forall j, Ok ?r = Ok (Some j) -> _, E : ?r = Some _ |- _ =>
             rewrite E in H; specialize (H _ eq_refl)
         end.
  all: try (subst; do 2 eexists; split; [|eassumption]; cbn [In]; tauto).
  all: match goal with
       | H : the_migratorJob _ = None, Hc : (isNil _ || _) = false |- _ =>
           cbn [the_migratorJob] in H, Hc; rewrite H in Hc; discriminate Hc
       end.
Qed.

(** ** The claims about [Reconcile] *)

(** C1.  In every reconciliation attempt in which a helper fetched its
    resource (the postgres config map, the postgres user, admin or cert
    secret, the tenant key secret) and found it, but a required field of it is
    absent or empty, [Reconcile] ends by reporting the degraded status for
    that resource, with the error that names a missing field as its cause,
    returns that error without a delay, and never assembles the change-set,
    resolves its images or calls [CreateOrUpdateOrDelete]. *)
Theorem incomplete_dependency_stops_reconcile w site nn obj key :
  In (EvGet site nn (Ok obj)) (trace (snd (attempt K X clusterDomain w))) ->
  In key (required_fields K site) ->
  lacks_field obj key = true ->
  exists key',
    In key' (required_fields K site) /\
    lacks_field obj key' = true /\
    fst (attempt K X clusterDomain w) =
      Return (Result_zero, Some (missing_field_error K site key')) /\
    (exists rest,
       trace (snd (attempt K X clusterDomain w)) =
         EvSetDegraded (degraded_reason site) (Error (missing_field_error K site key'))
           :: rest) /\
    Forall (fun e => is_apply_event e = false) (trace (snd (attempt K X clusterDomain w))).
Proof. exact (Reconcile_stops_on_incomplete w site nn obj key). Qed.


(** Where an attempt stands when lines 145-334 fell through. *)
Lemma attempt_schedules w p st1 :
  Reconcile_apply K X clusterDomain {| world := w; trace := [] |} = (Continue p, st1) ->
  attempt K X clusterDomain w = Reconcile_schedule K X p st1 /\
  Forall (fun e => is_ready_event e = false) (trace st1).
Proof.
  intros Happly. split.
  - unfold attempt, Reconcile, bind. rewrite Happly. reflexivity.
  - pose proof (Reconcile_apply_not_yet_ready w) as Hq.
    unfold wp, not_yet_ready in Hq. rewrite Happly in Hq. exact Hq.
Qed.

Ltac schedule :=
  unfold Reconcile_schedule, SetDegraded, ClearDegraded, statusIsAvailable, when, bind,
    emit, call, ret, return_, panic.

(** C2.  In every reconciliation attempt that reaches the scheduling
    decision, if the migrator job read again is absent, or the components are
    up and migration is needed, [Reconcile] reports the degraded status
    "Waiting for migrator job to be created" and returns a delay of one
    second and a nil error; it has not cleared the degraded status, asked
    for availability or written the status of the primary resource. *)
Theorem waits_for_migrator_job w p st1 :
  Reconcile_apply K X clusterDomain {| world := w; trace := [] |} = (Continue p, st1) ->
  the_migratorJob p = None \/ (the_componentsUp p = true /\ the_needsMigrating p = true) ->
  attempt K X clusterDomain w =
    (Return ({| Requeue := false; RequeueAfter := 1 * Second |}, None),
     {| world := world st1;
        trace := EvSetDegraded "Waiting for migrator job to be created" "" :: trace st1 |}) /\
  Forall (fun e => is_ready_event e = false) (trace (snd (attempt K X clusterDomain w))).
Proof.
  intros Happly Hcase.
  destruct (attempt_schedules w p st1 Happly) as [-> Hquiet].
  assert (Hcond : isNil (the_migratorJob p) || (the_componentsUp p && the_needsMigrating p)
                  = true).
  { destruct Hcase as [-> | [-> ->]]; [reflexivity|apply orb_true_r]. }
  schedule. rewrite Hcond. cbn [fst snd trace world].
  split; [reflexivity|]. constructor; [reflexivity|exact Hquiet].
Qed.

(** C3, as the code has it.  In every reconciliation attempt that reaches
    the scheduling decision with the first case of the decision not
    applying (the job read again exists, and not both the components are up
    and migration is needed), if that job has zero successes and a nonzero
    failure count, [Reconcile] reports the degraded status "Migrator job
    failed" and returns a nil error and no delay; it has not cleared the
    degraded status nor written the status of the primary resource. *)
Theorem migrator_job_failed w p st1 job :
  Reconcile_apply K X clusterDomain {| world := w; trace := [] |} = (Continue p, st1) ->
  the_migratorJob p = Some job ->
  the_componentsUp p && the_needsMigrating p = false ->
  Succeeded (Status job) = 0%Z ->
  Failed (Status job) <> 0%Z ->
  attempt K X clusterDomain w =
    (Return (Result_zero, None),
     {| world := world st1;
        trace :=
          EvSetDegraded "Migrator job failed"
            ("migrator job failed " +:+ sprintJobStatus X (Status job)) :: trace st1 |}) /\
  Forall (fun e => is_ready_event e = false) (trace (snd (attempt K X clusterDomain w))).
Proof.
  intros Happly Hjob Hfirst Hsucc Hfail.
  destruct (attempt_schedules w p st1 Happly) as [-> Hquiet].
  schedule. rewrite Hjob, Hfirst, Hsucc. cbn [isNil orb andb Z.eqb].
  apply Z.eqb_neq in Hfail. rewrite Hfail. cbn [fst snd trace world Error].
  split; [reflexivity|]. constructor; [reflexivity|exact Hquiet].
Qed.

(** C4, as the code has it.  In every reconciliation attempt that reaches
    the scheduling decision with the first case of the decision not
    applying, if the job read again has a nonzero success count, [Reconcile]
    clears the degraded status and asks the status reporter for
    availability; when that is false it returns a delay of thirty seconds
    and a nil error and does not write the status of the primary resource,
    and otherwise it updates the status of the ImageAssurance resource with
    the state ready and returns what the update returned.  Nothing of this
    happened earlier in the attempt. *)
Theorem migrator_job_succeeded w p st1 job :
  Reconcile_apply K X clusterDomain {| world := w; trace := [] |} = (Continue p, st1) ->
  the_migratorJob p = Some job ->
  the_componentsUp p && the_needsMigrating p = false ->
  Succeeded (Status job) <> 0%Z ->
  Forall (fun e => is_ready_event e = false) (trace st1) /\
  let ia := {| iaName := iaName (the_ia p); iaState := TigeraStatusReady K |} in
  let '(available, w2) := IsAvailable X (world st1) in
  if available then
    let '(e, w3) := clientStatusUpdate X ia w2 in
    attempt K X clusterDomain w =
      (Return (Result_zero, e),
       {| world := w3;
          trace :=
            EvStatusUpdate ia e :: EvIsAvailable true :: EvClearDegraded :: trace st1 |})
  else
    attempt K X clusterDomain w =
      (Return ({| Requeue := false; RequeueAfter := 30 * Second |}, None),
       {| world := w2; trace := EvIsAvailable false :: EvClearDegraded :: trace st1 |}).
Proof.
  intros Happly Hjob Hfirst Hsucc.
  destruct (attempt_schedules w p st1 Happly) as [-> Hquiet].
  split; [exact Hquiet|].
  apply Z.eqb_neq in Hsucc.
  schedule. rewrite Hjob, Hfirst, Hsucc. cbn.
  destruct (IsAvailable X (world st1)) as [[|] w2]; cbn.
  - destruct (clientStatusUpdate X _ w2) as [[err|] w3]; reflexivity.
  - reflexivity.
Qed.

(** [needsMigrating] on a job without containers. *)
Lemma needsMigrating_panics installation imageSet job ref (st : St) :
  GetReference X (ComponentImageAssuranceDBMigrator K) (Registry installation)
    (ImagePath installation) (ImagePrefix installation) imageSet = Ok ref ->
  Containers job = [] ->
  invoke (R:=Returned) (needsMigrating K X installation imageSet (Some job)) st = (Panic, st).
Proof.
  intros Href Hnone.
  unfold invoke, needsMigrating, bind, ret, return_, panic.
  rewrite Href, Hnone. reflexivity.
Qed.

(** C5, as the code has it.  When the image reference cannot be computed,
    [needsMigrating] returns false and the error.  When it is computed and
    not empty, and the job, if there is one, has a container,
    [needsMigrating] returns a nil error and true exactly when the job is
    absent, or the image of its first container differs from the reference,
    or the job has zero successes. *)
Theorem needsMigrating_decides installation imageSet job (st : St) :
  match GetReference X (ComponentImageAssuranceDBMigrator K) (Registry installation)
          (ImagePath installation) (ImagePrefix installation) imageSet with
  | Err e =>
      invoke (R:=Returned) (needsMigrating K X installation imageSet job) st
      = (Continue (false, Some e), st)
  | Ok ref =>
      ref <> "" ->
      (forall j, job = Some j -> Containers j <> []) ->
      exists b,
        invoke (R:=Returned) (needsMigrating K X installation imageSet job) st
        = (Continue (b, None), st) /\
        (b = true <->
         job = None \/
         exists j c rest,
           job = Some j /\ Containers j = c :: rest /\
           (Image c <> ref \/ Succeeded (Status j) = 0%Z))
  end.
Proof.
  unfold invoke, needsMigrating, bind, ret, return_, panic.
  destruct (GetReference _ _ _ _ _ _) as [ref|e]; [|reflexivity].
  intros Hne Hcont. destruct job as [j|].
  - destruct (Containers j) as [|c rest] eqn:Hcs; [destruct (Hcont j eq_refl Hcs)|].
    cbn [lookup list_lookup]. eexists. split; [reflexivity|].
    destruct (String.eqb_spec (Image c) "") as [Hempty|Hfull];
      destruct (String.eqb_spec (Image c) ref) as [Hsame|Hdiff];
      destruct (Z.eqb_spec (Succeeded (Status j)) 0) as [Hzero|Hpos];
      cbn [orb negb]; split; intros H; try reflexivity; try discriminate H.
    all: try (right; exists j, c, rest; split; [reflexivity|split; [exact Hcs|tauto]]).
    all: try congruence.
    all: destruct H as [H|(j' & c' & rest' & Hj & Hc & Hor)]; [discriminate H|].
    all: injection Hj as <-; rewrite Hcs in Hc; injection Hc as <- <-; tauto.
  - eexists. split; [reflexivity|]. cbn. split; auto.
Qed.

(** ** More about whole attempts *)

Lemma Reconcile_reports_errors w :
  wp (Reconcile K X clusterDomain) errors_are_reported {| world := w; trace := [] |}.
Proof.
  reconcile.
  all: unfold errors_are_reported; cbn [trace]; intros res err Hret.
  all: first
         [ discriminate Hret
         | injection Hret as <- <-;
           first [ left; eexists _, _; reflexivity | right; eexists _, _; reflexivity ] ].
Qed.

Lemma Reconcile_requeue_is_fixed w :
  wp (Reconcile K X clusterDomain) requeue_is_fixed {| world := w; trace := [] |}.
Proof.
  reconcile.
  all: unfold requeue_is_fixed; intros res err Hret.
  all: first
         [ discriminate Hret
         | injection Hret as <- <-; split; [reflexivity|];
           first
             [ left; reflexivity
             | right; left; split; reflexivity
             | right; right; left; split; [reflexivity|discriminate]
             | right; right; right; split; reflexivity ] ].
Qed.


(** ** The helpers in closed form *)

Ltac closed_form :=
  cbv [invoke bind getConfigMap getSecret getJob when call emit ret return_
       validated first_missing world trace required_fields lacks_field find as_object
       missing_field_error].

Ltac first_lacking :=
  repeat match goal with
    | |- context [lacks_text ?d ?k] => destruct (lacks_text d k); try reflexivity
    | |- context [lacks_bytes ?d ?k] => destruct (lacks_bytes d k); try reflexivity
    end.

Lemma getPGConfig_closed {R} w tr :
  invoke (R:=R) (getPGConfig K X) {| world := w; trace := tr |} =
  let nn := {| Name := PGConfigMapName K; Namespace := OperatorNamespace K |} in
  let '(g, w') := clientGetConfigMap X nn w in
  (Continue (validated K In_getPGConfig ObjConfigMap (PGConfigMapName K) g),
   {| world := w'; trace := EvGet In_getPGConfig nn (as_object ObjConfigMap g) :: tr |}).
Proof.
  unfold getPGConfig. closed_form.
  destruct (clientGetConfigMap X _ w) as [[cm|err] w']; [|reflexivity].
  first_lacking.
Qed.

Lemma getAdminPGUserSecret_closed {R} w tr :
  invoke (R:=R) (getAdminPGUserSecret K X) {| world := w; trace := tr |} =
  let nn := {| Name := PGAdminUserSecretName K; Namespace := OperatorNamespace K |} in
  let '(g, w') := clientGetSecret X nn w in
  (Continue (validated K In_getAdminPGUserSecret ObjSecret (PGAdminUserSecretName K) g),
   {| world := w';
      trace := EvGet In_getAdminPGUserSecret nn (as_object ObjSecret g) :: tr |}).
Proof.
  unfold getAdminPGUserSecret. closed_form.
  destruct (clientGetSecret X _ w) as [[s|err] w']; [|reflexivity]. first_lacking.
Qed.

Lemma getPGCertSecret_closed {R} w tr :
  invoke (R:=R) (getPGCertSecret K X) {| world := w; trace := tr |} =
  let nn := {| Name := PGCertSecretName K; Namespace := OperatorNamespace K |} in
  let '(g, w') := clientGetSecret X nn w in
  (Continue (validated K In_getPGCertSecret ObjSecret (PGCertSecretName K) g),
   {| world := w'; trace := EvGet In_getPGCertSecret nn (as_object ObjSecret g) :: tr |}).
Proof.
  unfold getPGCertSecret. closed_form.
  destruct (clientGetSecret X _ w) as [[s|err] w']; [|reflexivity]. first_lacking.
Qed.

Lemma getTenantKey_closed {R} w tr :
  invoke (R:=R) (getTenantKey K X) {| world := w; trace := tr |} =
  let nn := {| Name := TenantKeyName K; Namespace := OperatorNamespace K |} in
  let '(g, w') := clientGetSecret X nn w in
  (Continue (validated K In_getTenantKey ObjSecret (TenantKeyName K) g),
   {| world := w'; trace := EvGet In_getTenantKey nn (as_object ObjSecret g) :: tr |}).
Proof.
  unfold getTenantKey. closed_form.
  destruct (clientGetSecret X _ w) as [[s|err] w']; [|reflexivity]. first_lacking.
Qed.

(** X7.  [getPGConfig] looks the config map up once, under its name in the
    operator namespace.  A failed read comes back wrapped as "failed to read
    secret"; a config map lacking a field is refused with the error naming
    the first field it lacks in the order host, name, port, organization id,
    organization name; otherwise the config map itself is returned. *)
Theorem getPGConfig_validates {R} w tr :
  invoke (R:=R) (getPGConfig K X) {| world := w; trace := tr |} =
  let nn := {| Name := PGConfigMapName K; Namespace := OperatorNamespace K |} in
  let '(g, w') := clientGetConfigMap X nn w in
  (Continue (validated K In_getPGConfig ObjConfigMap (PGConfigMapName K) g),
   {| world := w'; trace := EvGet In_getPGConfig nn (as_object ObjConfigMap g) :: tr |}).
Proof. exact (getPGConfig_closed w tr). Qed.

(** X8.  [getAdminPGUserSecret], [getPGCertSecret] and [getTenantKey] each
    look their secret up once in the operator namespace, wrap a failed read,
    refuse a secret lacking a field with the error naming the first field it
    lacks (username before password; server CA, client key, client
    certificate; the encryption key), and otherwise return the secret.  The
    errors of [getAdminPGUserSecret] name the user secret and that of
    [getTenantKey] the cert secret. *)
Theorem secret_getters_validate {R} w tr :
  (invoke (R:=R) (getAdminPGUserSecret K X) {| world := w; trace := tr |} =
   let nn := {| Name := PGAdminUserSecretName K; Namespace := OperatorNamespace K |} in
   let '(g, w') := clientGetSecret X nn w in
   (Continue (validated K In_getAdminPGUserSecret ObjSecret (PGAdminUserSecretName K) g),
    {| world := w';
       trace := EvGet In_getAdminPGUserSecret nn (as_object ObjSecret g) :: tr |})) /\
  (invoke (R:=R) (getPGCertSecret K X) {| world := w; trace := tr |} =
   let nn := {| Name := PGCertSecretName K; Namespace := OperatorNamespace K |} in
   let '(g, w') := clientGetSecret X nn w in
   (Continue (validated K In_getPGCertSecret ObjSecret (PGCertSecretName K) g),
    {| world := w'; trace := EvGet In_getPGCertSecret nn (as_object ObjSecret g) :: tr |})) /\
  (invoke (R:=R) (getTenantKey K X) {| world := w; trace := tr |} =
   let nn := {| Name := TenantKeyName K; Namespace := OperatorNamespace K |} in
   let '(g, w') := clientGetSecret X nn w in
   (Continue (validated K In_getTenantKey ObjSecret (TenantKeyName K) g),
    {| world := w'; trace := EvGet In_getTenantKey nn (as_object ObjSecret g) :: tr |})) /\
  missing_field_error K In_getAdminPGUserSecret (PGUserSecretKey K)
    = expected_secret_field (PGUserSecretName K) (PGUserSecretKey K) /\
  missing_field_error K In_getTenantKey (EncryptionKeyName K)
    = expected_secret_field (PGCertSecretName K) (EncryptionKeyName K).
Proof.
  split; [exact (getAdminPGUserSecret_closed w tr)|].
  split; [exact (getPGCertSecret_closed w tr)|].
  split; [exact (getTenantKey_closed w tr)|].
  split; reflexivity.
Qed.

Lemma validated_Ok {T} site (inj : T -> Object) name g x :
  validated K site inj name g = Ok x ->
  g = Ok x /\ Forall (fun key => lacks_field (inj x) key = false) (required_fields K site).
Proof.
  unfold validated, first_missing. destruct g as [y|err]; [|discriminate].
  destruct (find _ _) eqn:Hfind; [discriminate|]. intros [= <-].
  split; [reflexivity|]. apply List.Forall_forall. intros key Hin.
  pose proof (find_none _ _ Hfind key Hin) as Hkey. cbn in Hkey. exact Hkey.
Qed.

Lemma first_missing_None site obj :
  first_missing K site obj = None ->
  Forall (fun key => lacks_field obj key = false) (required_fields K site).
Proof.
  intros Hfind. apply List.Forall_forall. intros key Hin.
  exact (find_none _ _ Hfind key Hin).
Qed.

Lemma getPGConfig_exactly {R} (st : St) :
  wp (invoke (R:=R) (getPGConfig K X))
    (fetched_exactly K In_getPGConfig ObjConfigMap (PGConfigMapName K) st) st.
Proof.
  destruct st as [w tr]. unfold wp. rewrite getPGConfig_closed. cbv zeta.
  destruct (clientGetConfigMap X _ w) as [g w']. cbn [fst snd].
  eexists _, g, w'. split; [reflexivity|]. split; reflexivity.
Qed.

Lemma getAdminPGUserSecret_exactly {R} (st : St) :
  wp (invoke (R:=R) (getAdminPGUserSecret K X))
    (fetched_exactly K In_getAdminPGUserSecret ObjSecret (PGAdminUserSecretName K) st) st.
Proof.
  destruct st as [w tr]. unfold wp.
  rewrite getAdminPGUserSecret_closed. cbv zeta.
  destruct (clientGetSecret X _ w) as [g w']. cbn [fst snd].
  eexists _, g, w'. split; [reflexivity|]. split; reflexivity.
Qed.

Lemma getPGCertSecret_exactly {R} (st : St) :
  wp (invoke (R:=R) (getPGCertSecret K X))
    (fetched_exactly K In_getPGCertSecret ObjSecret (PGCertSecretName K) st) st.
Proof.
  destruct st as [w tr]. unfold wp.
  rewrite getPGCertSecret_closed. cbv zeta.
  destruct (clientGetSecret X _ w) as [g w']. cbn [fst snd].
  eexists _, g, w'. split; [reflexivity|]. split; reflexivity.
Qed.

Lemma getTenantKey_exactly {R} (st : St) :
  wp (invoke (R:=R) (getTenantKey K X))
    (fetched_exactly K In_getTenantKey ObjSecret (TenantKeyName K) st) st.
Proof.
  destruct st as [w tr]. unfold wp.
  rewrite getTenantKey_closed. cbv zeta.
  destruct (clientGetSecret X _ w) as [g w']. cbn [fst snd].
  eexists _, g, w'. split; [reflexivity|]. split; reflexivity.
Qed.

Lemma getOrCreatePGUserSecret_exactly {R} orgID (st : St) :
  wp (invoke (R:=R) (getOrCreatePGUserSecret K X orgID)) (fetched_or_created K orgID st) st.
Proof.
  destruct st as [w tr]. wp_run; cbn [trace]; unfold fetched_or_created.
  all: subst.
  all: eexists _, _, _, _; split; [reflexivity|split; [reflexivity|split; [reflexivity|]]].
  all: intros x Hx; try discriminate Hx; injection Hx as <-.
  - left. split; [reflexivity|]. unfold first_missing.
    cbn [required_fields lacks_field find].
    repeat match goal with H : lacks_bytes _ _ = false |- _ => rewrite H; clear H end.
    reflexivity.
  - right. eexists _, _. split; [reflexivity|]. split; [assumption|reflexivity].
Qed.

Lemma getMigratorJob_exactly {R} (st : St) :
  wp (invoke (R:=R) (getMigratorJob K X)) (fetched_job_exactly K st) st.
Proof.
  destruct st as [w tr]. wp_run; cbn [trace]; unfold fetched_job_exactly.
  all: eexists _, _, _, _; split; [reflexivity|split; [reflexivity|split; [reflexivity|]]].
  all: split; [intros j Hj|intros Hnone]; try discriminate; try congruence.
  eexists. split; [reflexivity|assumption].
Qed.

Lemma componentsUp_exactly {R} (st : St) :
  wp (invoke (R:=R) (componentsUp K X)) (looked_up_exactly K st) st.
Proof.
  destruct st as [w tr]. wp_run; cbn [trace]; unfold looked_up_exactly.
  all: do 3 eexists; (split; [reflexivity|split; [reflexivity|]]).
  all: repeat first
         [ apply ext_refl
         | apply ext_cons;
           [eexists _, _; split; [|reflexivity]; cbn [key_of_site In]; tauto|] ].
Qed.

(** ** Whole attempts, with what the helpers return *)

Ltac wp_head_exactly m :=
  lazymatch m with
  | invoke (getPGConfig _ _) =>
      wp_spec getPGConfig_exactly; intros ? ? (? & ? & ? & [= <-] & -> & ->)
  | invoke (getOrCreatePGUserSecret _ _ _) =>
      wp_spec getOrCreatePGUserSecret_exactly; intros ? ? (? & ? & ? & ? & [= <-] & -> & -> & ?)
  | invoke (getAdminPGUserSecret _ _) =>
      wp_spec getAdminPGUserSecret_exactly; intros ? ? (? & ? & ? & [= <-] & -> & ->)
  | invoke (getPGCertSecret _ _) =>
      wp_spec getPGCertSecret_exactly; intros ? ? (? & ? & ? & [= <-] & -> & ->)
  | invoke (getTenantKey _ _) =>
      wp_spec getTenantKey_exactly; intros ? ? (? & ? & ? & [= <-] & -> & ->)
  | invoke (getMigratorJob _ _) =>
      wp_spec getMigratorJob_exactly;
      intros ? ? (? & ? & ? & ? & [= <-] & -> & -> & ? & ?)
  | invoke (componentsUp _ _) =>
      wp_spec componentsUp_exactly;
      let Hext := fresh "Hext" in
      intros ? ? (? & ? & ? & -> & -> & Hext); cbn [trace] in Hext
  | invoke (getAPICertSecret _ _ _) =>
      wp_spec getAPICertSecret_spec; intros ? ? (? & ? & -> & ->)
  | invoke (needsMigrating _ _ _ _ _) =>
      wp_spec needsMigrating_spec; intros ? ? (-> & [(? & ->) | (-> & ? & ? & ?)])
  | _ => wp_head m
  end; cbn [trace world].

Ltac wp_step_exactly :=
  lazymatch goal with
  | |- wp ?m _ _ => wp_head_exactly m
  | |- then_ _ _ (Continue _) _ => apply then_continue; cbv beta
  | |- then_ _ _ (Return _) _ => unfold then_ at 1; cbv beta iota
  | |- then_ _ _ Panic _ => unfold then_ at 1; cbv beta iota
  | |- called _ _ _ => unfold called at 1; cbv beta iota
  end.

Ltac reconcile_exactly := repeat wp_step_exactly.

Lemma extends_by_incl (P : Event -> Prop) tr tr' e :
  extends_by P tr tr' -> In e tr -> In e tr'.
Proof. induction 1; [auto|]. intros Hin. right. auto. Qed.

(** Going through the events of the trace in hypothesis [Hin], where
    [componentsUp] is known by its lookups. *)
Ltac each_lookup Hin tac tac' :=
  repeat lazymatch type of Hin with
    | In _ (_ :: _) => destruct Hin as [Hin|Hin]; [tac|]
    | In _ [] => destruct Hin
    | In _ ?tr' =>
        match goal with
        | Hext : extends_by _ _ tr' |- _ =>
            apply (extends_by_In _ _ _ _ Hext) in Hin;
            let Hnn := fresh "Hnn" in
            destruct Hin as [(? & ? & Hnn & Hin)|Hin]; [tac'|]
        end
    end.

(** The event is in the trace of the goal. *)
Ltac find_event :=
  repeat first
    [ left; reflexivity
    | right
    | eapply extends_by_incl; [eassumption|] ].

Ltac use_validated :=
  repeat match goal with
    | H : validated _ _ _ _ _ = Ok _ |- _ =>
        apply validated_Ok in H; destruct H as [-> ?]
    end;
  cbn [as_object].

Lemma Reconcile_looks_up_fixed_keys w :
  wp (Reconcile K X clusterDomain) (looks_up_fixed_keys K) {| world := w; trace := [] |}.
Proof.
  reconcile_exactly.
  all: unfold looks_up_fixed_keys; cbn [trace]; intros site nn g Hin.
  all: each_lookup Hin
         ltac:(first [discriminate Hin | injection Hin as <- <- <-; left; reflexivity])
         ltac:((injection Hin as <- <- <-; assumption)).
Qed.

Lemma Reconcile_renders_what_it_fetched w :
  wp (Reconcile K X clusterDomain) (renders_what_it_fetched K) {| world := w; trace := [] |}.
Proof.
  reconcile_exactly.
  all: unfold renders_what_it_fetched; cbn [trace]; intros cfg Hin.
  all: each_lookup Hin
         ltac:(first
                 [ discriminate Hin
                 | injection Hin as <-; cbn [PGConfig PGAdminUserSecret PGCertSecret
                                              TenantKey PGUserSecret];
                   use_validated;
                   repeat
                     match goal with
                     | |- fetched_complete _ _ _ _ /\ _ => split
                     | |- fetched_complete _ _ _ _ =>
                         split; [eexists; split; [reflexivity|find_event]|assumption]
                     end ])
         ltac:(discriminate Hin).
  all: match goal with
       | H : forall x, Ok ?s = Ok x -> _ |- _ =>
           destruct (H _ eq_refl) as [(-> & Hnone)|(? & pass & -> & ? & ->)]
       end.
  all: first
         [ left; split;
           [ eexists; split; [reflexivity|cbn [as_object]; find_event]
           | apply first_missing_None; assumption ]
         | right; exists pass; reflexivity ].
Qed.

Lemma Reconcile_ready_only_when_migrated w :
  wp (Reconcile K X clusterDomain) (ready_only_when_migrated K) {| world := w; trace := [] |}.
Proof.
  reconcile_exactly.
  all: unfold ready_only_when_migrated; cbn [trace]; intros ia' e' Hin.
  all: each_lookup Hin
         ltac:(first
                 [ discriminate Hin
                 | cbn [the_migratorJob the_ia] in *; subst;
                   injection Hin as <- <-;
                   split; [reflexivity|]; split; [reflexivity|];
                   match goal with
                   | H : forall j, Ok (Some ?job) = Ok (Some j) -> _ |- _ =>
                       rewrite (H _ eq_refl)
                   end;
                   match goal with
                   | H : negb ?b = false |- context [EvIsAvailable ?b] =>
                       destruct b; [|discriminate H]
                   end;
                   eexists _, _, _, _, _; split; [|cbn [as_object]; reflexivity];
                   apply Z.eqb_neq; assumption ])
         ltac:(discriminate Hin).
Qed.

(** ** What an attempt does and never does *)

(** X1.  Whenever [Reconcile] returns an error, the last thing the attempt
    did was to report it: it called [SetDegraded] with the text of that very
    error, or the error is the one of the final status update. *)
Theorem returned_error_was_reported w res err :
  fst (attempt K X clusterDomain w) = Return (res, Some err) ->
  (exists reason rest,
     trace (snd (attempt K X clusterDomain w)) = EvSetDegraded reason (Error err) :: rest) \/
  (exists ia rest,
     trace (snd (attempt K X clusterDomain w)) = EvStatusUpdate ia (Some err) :: rest).
Proof. exact (Reconcile_reports_errors w res err). Qed.

(** X2.  [Reconcile] never sets [Requeue], and asks for no delay, or for
    one second or thirty seconds without an error, or for twenty seconds
    with an error. *)
Theorem requeue_delays_are_fixed w res err :
  fst (attempt K X clusterDomain w) = Return (res, err) ->
  Requeue res = false /\
  (RequeueAfter res = 0%Z \/
   (RequeueAfter res = (1 * Second)%Z /\ err = None) \/
   (RequeueAfter res = (20 * Second)%Z /\ err <> None) \/
   (RequeueAfter res = (30 * Second)%Z /\ err = None)).
Proof. exact (Reconcile_requeue_is_fixed w res err). Qed.


(** X4.  An attempt panics only in [needsMigrating]: if it panics, it had
    fetched a migrator job without containers.  In particular the read of
    [migratorJob.Status] is never reached with a nil job. *)
Theorem panics_only_on_job_without_containers w :
  fst (attempt K X clusterDomain w) = Panic ->
  exists nn j,
    In (EvGet In_getMigratorJob nn (Ok (ObjJob j)))
      (trace (snd (attempt K X clusterDomain w))) /\
    Containers j = [].
Proof. exact (Reconcile_panics_only_on_empty_job w). Qed.

(** X5.  The status of the primary resource is written at most once and
    only as the last step of an attempt, with the state ready; before it the
    attempt rendered, resolved the images of and applied both components
    without error, read a migrator job with a success, cleared the degraded
    status and was told that everything is available.  What the attempt
    returns is the error of that write. *)
Theorem ready_written_only_when_migrated w ia e :
  In (EvStatusUpdate ia e) (trace (snd (attempt K X clusterDomain w))) ->
  iaState ia = TigeraStatusReady K /\
  fst (attempt K X clusterDomain w) = Return (Result_zero, e) /\
  exists nn job tls cfg rest,
    Succeeded (Status job) <> 0%Z /\
    trace (snd (attempt K X clusterDomain w)) =
      EvStatusUpdate ia e :: EvIsAvailable true :: EvClearDegraded
        :: EvGet In_getMigratorJob nn (Ok (ObjJob job))
        :: EvCreateOrUpdateOrDelete (ImageAssuranceComponent cfg) None
        :: EvCreateOrUpdateOrDelete (NewPassthrough [tls]) None
        :: EvApplyImageSet [NewPassthrough [tls]; ImageAssuranceComponent cfg] None
        :: EvRender cfg :: rest.
Proof. exact (Reconcile_ready_only_when_migrated w ia e). Qed.

(** X6.  The postgres config map, the admin secret, the cert secret and the
    tenant key handed to the renderer are the ones the attempt itself
    fetched under the helpers' keys, and each has all its required fields;
    the user secret is either such a fetched and complete secret or the one
    newly built for the organization of that config map. *)
Theorem renderer_gets_what_was_fetched w cfg :
  In (EvRender cfg) (trace (snd (attempt K X clusterDomain w))) ->
  let tr := trace (snd (attempt K X clusterDomain w)) in
  fetched_complete K In_getPGConfig (ObjConfigMap (PGConfig cfg)) tr /\
  fetched_complete K In_getAdminPGUserSecret (ObjSecret (PGAdminUserSecret cfg)) tr /\
  fetched_complete K In_getPGCertSecret (ObjSecret (PGCertSecret cfg)) tr /\
  fetched_complete K In_getTenantKey (ObjSecret (TenantKey cfg)) tr /\
  (fetched_complete K In_getOrCreatePGUserSecret (ObjSecret (PGUserSecret cfg)) tr \/
   exists pass,
     PGUserSecret cfg =
       created_user_secret K (default "" (cmData (PGConfig cfg) !! PGConfigOrgIDKey K)) pass).
Proof. exact (Reconcile_renders_what_it_fetched w cfg). Qed.

(** ** The user secret that is built *)

Lemma length_bytes_of_string s : length (bytes_of_string s) = String.length s.
Proof.
  unfold bytes_of_string, String.list_byte_of_string.
  rewrite length_map. induction s as [|a s IH]; [reflexivity|]. cbn. now rewrite IH.
Qed.

Lemma lacks_bytes_of_string (d : gmap string bytes) key s :
  d !! key = Some (bytes_of_string s) -> s <> "" -> lacks_bytes d key = false.
Proof.
  intros Hd Hs. unfold lacks_bytes. unfold bytes in *. rewrite Hd.
  change ((length (bytes_of_string s) =? 0)%nat = false). rewrite length_bytes_of_string.
  destruct s; [destruct Hs; reflexivity|reflexivity].
Qed.

(** X9.  When the postgres user secret is not found,
    [getOrCreatePGUserSecret] asks for a random password of sixteen
    characters and returns a secret named like the missing one, holding
    "<organization>_user" and that password; it writes nothing itself.  With
    the field names "username" and "password" and a password that is not
    empty, that secret has both required fields, so a later attempt that
    finds it stored will accept it. *)
Theorem getOrCreatePGUserSecret_creates {R} orgID w tr err w1 pass w2 :
  clientGetSecret X
    {| Name := PGUserSecretName K; Namespace := NameSpaceImageAssurance K |} w = (Err err, w1) ->
  IsNotFound err = true ->
  RandomPassword X 16 w1 = (Ok pass, w2) ->
  PGUserSecretKey K = "username" ->
  PGUserPassKey K = "password" ->
  pass <> "" ->
  invoke (R:=R) (getOrCreatePGUserSecret K X orgID) {| world := w; trace := tr |} =
    (Continue (Ok (created_user_secret K orgID pass)),
     {| world := w2;
        trace := EvGet In_getOrCreatePGUserSecret
                   {| Name := PGUserSecretName K; Namespace := NameSpaceImageAssurance K |}
                   (Err err) :: tr |}) /\
  first_missing K In_getOrCreatePGUserSecret (ObjSecret (created_user_secret K orgID pass))
    = None.
Proof.
  intros Hget Hnf Hpass Hu Hp Hne. split.
  - unfold getOrCreatePGUserSecret.
    cbv [invoke bind getSecret call emit ret return_ world trace as_object].
    rewrite Hget, Hnf, Hpass. reflexivity.
  - unfold first_missing. cbn [required_fields lacks_field find created_user_secret secData].
    rewrite Hu, Hp.
    rewrite (lacks_bytes_of_string _ "username" (orgID +:+ "_user")).
    + rewrite (lacks_bytes_of_string _ "password" pass); [reflexivity| |exact Hne].
      rewrite lookup_insert_ne by discriminate. apply lookup_singleton_eq.
    + apply lookup_insert_eq.
    + destruct orgID; discriminate.
Qed.

(** ** The watches *)

Section Watches.

Variable ManagerCertSecretName : string.
Variable startWatch : Watched -> Call (option error).

Abbreviation add := (add K ManagerCertSecretName startWatch).
Abbreviation watches := (watches K ManagerCertSecretName).

Ltac registered_upto n :=
  first
    [ exists n; split; [reflexivity|]; split;
      [ split; [intros Hnone; first [reflexivity | discriminate Hnone]
               |intros Hn; first [reflexivity | discriminate Hn]]
      | intros err' Herr; first
          [ discriminate Herr
          | injection Herr as <-;
            match goal with
            | H : startWatch ?wt ?w1 = (Some ?c, _) |- _ =>
                exists wt, c, w1; split; [reflexivity|]; split; [rewrite H; reflexivity|];
                first [left; split; reflexivity | right; eexists; reflexivity]
            end ] ]
    | lazymatch n with
      | 12%nat => fail
      | _ => registered_upto (S n)
      end ].

Lemma add_registers w :
  exists n,
    snd (fst (add w)) = rev (firstn n watches) /\
    (fst (fst (add w)) = None <-> n = length watches) /\
    forall err,
      fst (fst (add w)) = Some err ->
      exists wt cause w1,
        nth_error watches n = Some wt /\
        fst (startWatch wt w1) = Some cause /\
        ((n = 0%nat /\ err = cause) \/ exists what, err = failed_to_watch what cause).
Proof.
  unfold Controller.add, watching_each, watching.
  repeat match goal with
    | |- context [startWatch ?wt ?w1] =>
        destruct (startWatch wt w1) as [[?|] ?] eqn:?; cbn [fst snd]
    end.
  all: registered_upto 0%nat.
Qed.


Lemma add_registers_all w :
  fst (fst (add w)) = None -> snd (fst (add w)) = rev watches.
Proof.
  intros Hnone. destruct (add_registers w) as (n & Hdone & Hn & _).
  rewrite Hdone, (proj1 Hn Hnone). reflexivity.
Qed.

(** X11.  Once [add] has returned nil, every resource that a helper of
    [Reconcile] looks up in any attempt is watched, with one exception: the
    three deployments that [componentsUp] looks up are not. *)
Theorem lookups_are_watched w0 w site nn g :
  fst (fst (add w0)) = None ->
  In (EvGet site nn g) (trace (snd (attempt K X clusterDomain w))) ->
  In (watch_for site nn) (snd (fst (add w0))) <-> site <> In_componentsUp.
Proof.
  intros Hnone Hin. rewrite (add_registers_all w0 Hnone), <- in_rev.
  pose proof (Reconcile_looks_up_fixed_keys w site nn g Hin) as Hkey.
  unfold Controller.watches, in_operator_namespace, in_image_assurance_namespace.
  destruct site; cbn [key_of_site In] in Hkey; cbn [watch_for].
  7: { split; [intros Hw; exfalso|intros Hne; destruct Hne; reflexivity].
       repeat (destruct Hw as [Hw|Hw]; [discriminate Hw|]). destruct Hw. }
  all: split; [intros _; discriminate|intros _].
  all: destruct Hkey as [<-|[]]; cbn [In]; tauto.
Qed.

End Watches.

End Properties.

(** ** The claims on the in-memory cluster *)

Abbreviation attempt_on c := (attempt Fake.K Fake.X Fake.clusterDomain c).
Abbreviation apply_on c :=
  (Reconcile_apply Fake.K Fake.X Fake.clusterDomain {| world := c; trace := [] |}).

Lemma with_snd {A B} (x : A * B) (a : A) : fst x = a -> x = (a, snd x).
Proof. intros <-. destruct x; reflexivity. Qed.

(** The config map of the controller's test stops the attempt: it has no
    organization id. *)
Lemma incomplete_dependency_stops_reconcile_witness :
  In (EvGet In_getPGConfig (Fake.in_operator_ns (PGConfigMapName Fake.K))
        (Ok (ObjConfigMap Fake.pgConfig_without_org)))
    (trace (snd (attempt_on Fake.without_org))) /\
  lacks_field (ObjConfigMap Fake.pgConfig_without_org) "organizationID" = true /\
  exists key',
    fst (attempt_on Fake.without_org) =
      Return (Result_zero, Some (missing_field_error Fake.K In_getPGConfig key')) /\
    Forall (fun e => is_apply_event e = false) (trace (snd (attempt_on Fake.without_org))).
Proof.
  assert (Hin : In (EvGet In_getPGConfig (Fake.in_operator_ns (PGConfigMapName Fake.K))
                      (Ok (ObjConfigMap Fake.pgConfig_without_org)))
                  (trace (snd (attempt_on Fake.without_org)))).
  { vm_compute. right. left. reflexivity. }
  assert (Hlack : lacks_field (ObjConfigMap Fake.pgConfig_without_org) "organizationID" = true).
  { vm_compute. reflexivity. }
  split; [exact Hin|]. split; [exact Hlack|].
  destruct (incomplete_dependency_stops_reconcile Fake.K Fake.X Fake.clusterDomain
              Fake.without_org In_getPGConfig _ _ "organizationID" Hin)
    as (key' & _ & _ & Hret & _ & Hnone).
  - vm_compute. tauto.
  - exact Hlack.
  - exists key'. split; [exact Hret|exact Hnone].
Defined.


Lemma waits_for_migrator_job_witness :
  fst (apply_on Fake.without_job) = Continue (Fake.applied true false None) /\
  fst (attempt_on Fake.without_job) =
    Return ({| Requeue := false; RequeueAfter := 1 * Second |}, None).
Proof.
  assert (Happly : fst (apply_on Fake.without_job) = Continue (Fake.applied true false None)).
  { vm_compute. reflexivity. }
  split; [exact Happly|].
  destruct (waits_for_migrator_job Fake.K Fake.X Fake.clusterDomain Fake.without_job
              _ _ (with_snd _ _ Happly) (or_introl eq_refl)) as [Hret _].
  rewrite Hret. reflexivity.
Defined.

(** C3 as stated fails: the job read again has zero successes and one
    failure, but a deployment is up and migration is needed, so the first
    case of the decision applies and [Reconcile] asks for a retry in one
    second instead of reporting "Migrator job failed". *)
Lemma failed_job_still_awaited :
  let job := Fake.migrator [Fake.current_image] 0 1 in
  fst (apply_on Fake.job_failed_components_up) = Continue (Fake.applied true true (Some job)) /\
  Succeeded (Status job) = 0%Z /\
  Failed (Status job) <> 0%Z /\
  fst (attempt_on Fake.job_failed_components_up) =
    Return ({| Requeue := false; RequeueAfter := 1 * Second |}, None) /\
  hd_error (trace (snd (attempt_on Fake.job_failed_components_up))) =
    Some (EvSetDegraded "Waiting for migrator job to be created" "") /\
  fst (attempt_on Fake.job_failed_components_up) <> Return (Result_zero, None) /\
  existsb (reports "Migrator job failed")
    (trace (snd (attempt_on Fake.job_failed_components_up))) = false.
Proof.
  cbv zeta.
  split; [vm_compute; reflexivity|]. split; [reflexivity|]. split; [discriminate|].
  split; [vm_compute; reflexivity|]. split; [vm_compute; reflexivity|].
  split; [vm_compute; discriminate|]. vm_compute; reflexivity.
Qed.

Lemma migrator_job_failed_witness :
  let job := Fake.migrator [Fake.current_image] 0 1 in
  fst (apply_on Fake.job_failed) = Continue (Fake.applied true false (Some job)) /\
  Failed (Status job) <> 0%Z /\
  fst (attempt_on Fake.job_failed) = Return (Result_zero, None) /\
  hd_error (trace (snd (attempt_on Fake.job_failed))) =
    Some (EvSetDegraded "Migrator job failed" "migrator job failed {...}").
Proof.
  cbv zeta.
  assert (Happly : fst (apply_on Fake.job_failed)
                   = Continue (Fake.applied true false
                                 (Some (Fake.migrator [Fake.current_image] 0 1)))).
  { vm_compute. reflexivity. }
  assert (Hfail : Failed (Status (Fake.migrator [Fake.current_image] 0 1)) <> 0%Z)
    by discriminate.
  split; [exact Happly|]. split; [exact Hfail|].
  destruct (migrator_job_failed Fake.K Fake.X Fake.clusterDomain Fake.job_failed
              _ _ _ (with_snd _ _ Happly) eq_refl eq_refl eq_refl Hfail) as [Hret _].
  rewrite Hret. split; reflexivity.
Defined.

(** C4 as stated fails: the job read again has succeeded, but with another
    image than the one wanted now while a deployment is up, so the first
    case of the decision applies: [Reconcile] asks for a retry in one second
    and neither clears the degraded status nor writes the status. *)
Lemma succeeded_job_still_awaited :
  let job :=
    Fake.migrator ["some.registry.org/tigera/image-assurance-db-migrator:v0.9.0"] 1 0 in
  fst (apply_on Fake.old_job_components_up) = Continue (Fake.applied true true (Some job)) /\
  Succeeded (Status job) <> 0%Z /\
  fst (attempt_on Fake.old_job_components_up) =
    Return ({| Requeue := false; RequeueAfter := 1 * Second |}, None) /\
  hd_error (trace (snd (attempt_on Fake.old_job_components_up))) =
    Some (EvSetDegraded "Waiting for migrator job to be created" "") /\
  existsb is_ready_event (trace (snd (attempt_on Fake.old_job_components_up))) = false.
Proof.
  cbv zeta.
  split; [vm_compute; reflexivity|]. split; [discriminate|].
  split; [vm_compute; reflexivity|]. split; [vm_compute; reflexivity|].
  vm_compute; reflexivity.
Qed.

Lemma migrator_job_succeeded_witness :
  let job := Fake.migrator [Fake.current_image] 1 0 in
  fst (apply_on Fake.migrated) = Continue (Fake.applied false false (Some job)) /\
  Succeeded (Status job) <> 0%Z /\
  fst (attempt_on Fake.migrated) = Return (Result_zero, None) /\
  hd_error (trace (snd (attempt_on Fake.migrated))) =
    Some (EvStatusUpdate {| iaName := "tigera-secure"; iaState := "Ready" |} None).
Proof.
  cbv zeta.
  assert (Happly : fst (apply_on Fake.migrated)
                   = Continue (Fake.applied false false
                                 (Some (Fake.migrator [Fake.current_image] 1 0)))).
  { vm_compute. reflexivity. }
  assert (Hsucc : Succeeded (Status (Fake.migrator [Fake.current_image] 1 0)) <> 0%Z)
    by discriminate.
  split; [exact Happly|]. split; [exact Hsucc|].
  pose proof (proj2 (migrator_job_succeeded Fake.K Fake.X Fake.clusterDomain Fake.migrated
                       _ _ _ (with_snd _ _ Happly) eq_refl eq_refl Hsucc)) as Hret.
  cbn [IsAvailable clientStatusUpdate Fake.X Fake.applied the_ia iaName TigeraStatusReady
         Fake.K] in Hret.
  match type of Hret with
  | if ?b then _ else _ =>
      assert (Havailable : b = true) by (vm_compute; reflexivity);
      rewrite Havailable in Hret
  end.
  rewrite Hret. split; reflexivity.
Defined.

(** C5 as stated fails: with no job at all, [needsMigrating] returns false
    when the image reference cannot be computed. *)
Lemma needsMigrating_without_reference :
  invoke (R:=Returned)
    (needsMigrating Fake.K Fake.X_without_reference Fake.the_installation None None)
    {| world := Fake.without_job; trace := [] |}
  = (Continue (false, Some (ApiError false "no image in the image set")),
     {| world := Fake.without_job; trace := [] |}).
Proof. reflexivity. Qed.

Lemma needsMigrating_decides_witness :
  let job := Fake.migrator [Fake.current_image] 1 0 in
  Fake.current_image <> "" /\
  exists b,
    invoke (R:=Returned) (needsMigrating Fake.K Fake.X Fake.the_installation None (Some job))
      {| world := Fake.migrated; trace := [] |}
    = (Continue (b, None), {| world := Fake.migrated; trace := [] |}) /\
    (b = true <->
     Some job = None \/
     exists j c rest,
       Some job = Some j /\ Containers j = c :: rest /\
       (Image c <> Fake.current_image \/ Succeeded (Status j) = 0%Z)).
Proof.
  cbv zeta.
  assert (Hne : Fake.current_image <> "") by discriminate.
  split; [exact Hne|].
  apply (needsMigrating_decides Fake.K Fake.X Fake.the_installation None
           (Some (Fake.migrator [Fake.current_image] 1 0))
           {| world := Fake.migrated; trace := [] |} Hne).
  intros j Hj. injection Hj as <-. discriminate.
Defined.

(** C6 fails on the code: a migrator job whose pod template has no
    container makes [needsMigrating] index an empty slice, and the attempt
    panics instead of returning. *)
Theorem Reconcile_panics_on_job_without_containers :
  Containers (Fake.migrator [] 1 0) = [] /\
  fst (attempt_on Fake.job_without_containers) = Panic.
Proof. split; [reflexivity|vm_compute; reflexivity]. Qed.

(** ** More attempts on the in-memory cluster *)

Lemma returned_error_was_reported_witness :
  let err := expected_configmap_field "tigera-image-assurance-postgres" "organizationID" in
  fst (attempt_on Fake.without_org) = Return (Result_zero, Some err) /\
  ((exists reason rest,
      trace (snd (attempt_on Fake.without_org)) = EvSetDegraded reason (Error err) :: rest) \/
   (exists ia rest,
      trace (snd (attempt_on Fake.without_org)) = EvStatusUpdate ia (Some err) :: rest)).
Proof.
  cbv zeta.
  assert (Hret : fst (attempt_on Fake.without_org)
                 = Return (Result_zero,
                           Some (expected_configmap_field "tigera-image-assurance-postgres"
                                   "organizationID"))).
  { vm_compute. reflexivity. }
  split; [exact Hret|].
  exact (returned_error_was_reported Fake.K Fake.X Fake.clusterDomain _ _ _ Hret).
Defined.

Lemma requeue_delays_are_fixed_witness :
  let res := {| Requeue := false; RequeueAfter := 1 * Second |} in
  fst (attempt_on Fake.without_job) = Return (res, None) /\
  Requeue res = false.
Proof.
  cbv zeta.
  assert (Hret : fst (attempt_on Fake.without_job)
                 = Return ({| Requeue := false; RequeueAfter := 1 * Second |}, None)).
  { vm_compute. reflexivity. }
  split; [exact Hret|].
  exact (proj1 (requeue_delays_are_fixed Fake.K Fake.X Fake.clusterDomain _ _ _ Hret)).
Defined.


Lemma panics_only_on_job_without_containers_witness :
  fst (attempt_on Fake.job_without_containers) = Panic /\
  exists nn j,
    In (EvGet In_getMigratorJob nn (Ok (ObjJob j)))
      (trace (snd (attempt_on Fake.job_without_containers))) /\
    Containers j = [].
Proof.
  assert (Hpanic : fst (attempt_on Fake.job_without_containers) = Panic).
  { vm_compute. reflexivity. }
  split; [exact Hpanic|].
  exact (panics_only_on_job_without_containers Fake.K Fake.X Fake.clusterDomain _ Hpanic).
Defined.

Lemma ready_written_only_when_migrated_witness :
  let ia := {| iaName := "tigera-secure"; iaState := "Ready" |} in
  In (EvStatusUpdate ia None) (trace (snd (attempt_on Fake.migrated))) /\
  iaState ia = TigeraStatusReady Fake.K /\
  fst (attempt_on Fake.migrated) = Return (Result_zero, None).
Proof.
  cbv zeta.
  assert (Hin : In (EvStatusUpdate {| iaName := "tigera-secure"; iaState := "Ready" |} None)
                  (trace (snd (attempt_on Fake.migrated)))).
  { vm_compute. left. reflexivity. }
  split; [exact Hin|].
  destruct (ready_written_only_when_migrated Fake.K Fake.X Fake.clusterDomain _ _ _ Hin)
    as (Hstate & Hret & _).
  split; [exact Hstate|exact Hret].
Defined.

Lemma renderer_gets_what_was_fetched_witness :
  In (EvRender Fake.rendered) (trace (snd (attempt_on Fake.migrated))) /\
  fetched_complete Fake.K In_getPGConfig (ObjConfigMap Fake.pgConfig_complete)
    (trace (snd (attempt_on Fake.migrated))).
Proof.
  assert (Hin : In (EvRender Fake.rendered) (trace (snd (attempt_on Fake.migrated)))).
  { apply (nth_error_In _ 7). vm_compute. reflexivity. }
  split; [exact Hin|].
  exact (proj1 (renderer_gets_what_was_fetched Fake.K Fake.X Fake.clusterDomain _ _ Hin)).
Defined.

Lemma getOrCreatePGUserSecret_creates_witness :
  invoke (R:=Returned) (getOrCreatePGUserSecret Fake.K Fake.X "org1")
    {| world := Fake.without_user_secret; trace := [] |} =
    (Continue (Ok (created_user_secret Fake.K "org1" "0123456789abcdef")),
     {| world := Fake.without_user_secret;
        trace := [EvGet In_getOrCreatePGUserSecret (Fake.in_ia_ns (PGUserSecretName Fake.K))
                    (Err Fake.not_found)] |}) /\
  first_missing Fake.K In_getOrCreatePGUserSecret
    (ObjSecret (created_user_secret Fake.K "org1" "0123456789abcdef")) = None.
Proof.
  apply (getOrCreatePGUserSecret_creates Fake.K Fake.X "org1" Fake.without_user_secret []
           Fake.not_found Fake.without_user_secret "0123456789abcdef"
           Fake.without_user_secret).
  - vm_compute. reflexivity.
  - reflexivity.
  - reflexivity.
  - reflexivity.
  - reflexivity.
  - discriminate.
Defined.

(** On a manager that knows no jobs, [add] stops at the job after ten
    watches. *)
Lemma add_without_jobs :
  fst (add Fake.K Fake.ManagerCertSecretName Fake.startWatch_without_jobs Fake.migrated) =
    (Some (Errorf "ImageAssurance-controller failed to watch Job tigera-image-assurance-db-migrator: no kind is registered for the type Job"),
     rev (firstn 10 (watches Fake.K Fake.ManagerCertSecretName))).
Proof. reflexivity. Qed.

Lemma lookups_are_watched_witness :
  let nn := Fake.in_operator_ns (PGConfigMapName Fake.K) in
  fst (fst (add Fake.K Fake.ManagerCertSecretName Fake.startWatch Fake.migrated)) = None /\
  In (EvGet In_getPGConfig nn (Ok (ObjConfigMap Fake.pgConfig_complete)))
    (trace (snd (attempt_on Fake.migrated))) /\
  In (WatchConfigMap nn)
    (snd (fst (add Fake.K Fake.ManagerCertSecretName Fake.startWatch Fake.migrated))).
Proof.
  cbv zeta.
  assert (Hnone : fst (fst (add Fake.K Fake.ManagerCertSecretName Fake.startWatch
                              Fake.migrated)) = None) by reflexivity.
  assert (Hin : In (EvGet In_getPGConfig (Fake.in_operator_ns (PGConfigMapName Fake.K))
                      (Ok (ObjConfigMap Fake.pgConfig_complete)))
                  (trace (snd (attempt_on Fake.migrated)))).
  { apply (nth_error_In _ 17). vm_compute. reflexivity. }
  split; [exact Hnone|]. split; [exact Hin|].
  apply (proj2 (lookups_are_watched Fake.K Fake.X Fake.clusterDomain
                  Fake.ManagerCertSecretName Fake.startWatch Fake.migrated Fake.migrated
                  In_getPGConfig _ _ Hnone Hin)).
  discriminate.
Defined.

End ControllerProofs.

(** * Properties of the configuration syncer *)

Module ConfigSyncProofs.

Import ConfigSync.

Section Properties.

Context {World : Type}.
Variable syncConfigMap : World -> option error * World.

Abbreviation Sys := (@Sys World).
Abbreviation Env := (@Env World).
Abbreviation step := (@step World syncConfigMap).
Abbreviation exec := (@exec World syncConfigMap).
Abbreviation reachable := (@reachable World syncConfigMap).

(** ** The log of effects *)

Definition is_reply (x : Effect) : Prop := exists errChan e, x = Replied errChan e.

Lemma replies_current_nil : replies_current [].
Proof. intros [|x later] errChan e earlier H; discriminate H. Qed.

Lemma replies_current_cons x log :
  ~ is_reply x -> replies_current log -> replies_current (x :: log).
Proof.
  intros Hx Hlog [|y later] errChan e earlier H; cbn in H; inversion H; subst.
  - destruct Hx. eexists _, _. reflexivity.
  - eapply Hlog. reflexivity.
Qed.

Lemma replies_current_reply errChan log :
  replies_current log -> replies_current (Replied errChan (last_sync log) :: log).
Proof.
  intros Hlog [|y later] c e earlier H; cbn in H; inversion H; subst.
  - reflexivity.
  - eapply Hlog. reflexivity.
Qed.

Ltac not_a_reply := intros (? & ? & Hreply); discriminate Hreply.

(** ** The invariant *)

Lemma NewSyncer_invariant (w : World) : invariant (NewSyncer w).
Proof.
  split; cbn.
  - intros l _. exists []. split; [reflexivity|]. unfold apiChan_capacity. cbn. lia.
  - intros l [= <-]. reflexivity.
  - reflexivity.
  - intros l t [= <-] Ht. discriminate Ht.
  - intros l [= <-]. reflexivity.
  - apply replies_current_nil.
Qed.

Lemma send_keeps_capacity buf v ch :
  send (Open buf) v = Delivered ch ->
  exists buf', ch = Open buf' /\ (length buf' <= apiChan_capacity)%nat.
Proof.
  unfold send, apiChan_capacity.
  destruct (Nat.ltb_spec (length buf) 1) as [Hlt|Hge]; [|discriminate].
  intros [= <-]. exists (buf ++ [v])%list. split; [reflexivity|].
  rewrite length_app. cbn. lia.
Qed.

Ltac replies :=
  repeat first
    [ assumption
    | apply replies_current_cons; [not_a_reply|]
    | apply replies_current_reply ].

(** The equations between sets of tickers that arise. *)
Ltac sets :=
  first
    [ reflexivity
    | apply difference_diag_L
    | apply (right_id_L (∅ : gset Ticker) (∪)) ].

(** A field of the invariant after a step. *)
Ltac field Hrun :=
  cbn;
  lazymatch goal with
  | |- replies_current _ => replies
  | |- @eq (gset _) _ _ => rewrite Hrun; sets
  | _ => intros; simplify_eq/=; first [ done | lia | by eauto ]
  end.

Lemma step_invariant (s s' : Sys) a :
  invariant s -> step s a = Some s' -> invariant s'.
Proof.
  intros [Hbox Hch Hrun Hfresh Herr Hrep] Hstep.
  destruct a; cbn in Hstep.
  - (* StartPeriodicSync *)
    unfold StartPeriodicSync in Hstep.
    destruct (send (apiChan s) startSyncRequest) as [ch| |] eqn:Hsend;
      [| |discriminate Hstep]; injection Hstep as <-; split; cbn; auto.
    intros l Hl. destruct (Hbox l Hl) as (buf & Hbuf & _).
    rewrite Hbuf in Hsend. exact (send_keeps_capacity _ _ _ Hsend).
  - (* Error *)
    unfold Error_send in Hstep.
    destruct (send (apiChan s) (getErrRequest (errChans s))) as [ch| |] eqn:Hsend;
      [|discriminate Hstep..]; injection Hstep as <-; split; cbn; auto.
    intros l Hl. destruct (Hbox l Hl) as (buf & Hbuf & _).
    rewrite Hbuf in Hsend. exact (send_keeps_capacity _ _ _ Hsend).
  - (* Cancel *)
    injection Hstep as <-. split; cbn; auto.
  - (* case req := <-s.apiChan *)
    destruct (loop s) as [[tk tch er]|] eqn:Hl; [|discriminate Hstep].
    destruct (apiChan s) as [[|req rest]|] eqn:Hbuf; try discriminate Hstep.
    injection Hstep as <-.
    specialize (Hch _ eq_refl). specialize (Herr _ eq_refl).
    pose proof (fun t => Hfresh _ t eq_refl) as Hlt. clear Hfresh.
    cbn in Hch, Herr, Hlt, Hrun. subst tch er.
    assert (Hrest : exists buf, Open rest = Open buf /\ (length buf <= apiChan_capacity)%nat).
    { destruct (Hbox _ eq_refl) as (buf & [= <-] & Hlen). exists rest.
      split; [reflexivity|]. cbn in Hlen. lia. }
    clear Hbox.
    unfold turn, iteration. destruct req as [|errChan]; cbn.
    + destruct tk as [t|]; cbn.
      * split; field Hrun.
      * unfold sync. destruct (syncConfigMap (cluster (env s))) as [e w'].
        split; field Hrun.
    + split; field Hrun.
  - (* case _, ok := <-tickerCh *)
    destruct (loop s) as [[tk tch er]|] eqn:Hl; [|discriminate Hstep].
    cbn in Hstep. destruct tch as [t|] eqn:Ht; [|discriminate Hstep].
    injection Hstep as <-.
    specialize (Hch _ eq_refl). specialize (Herr _ eq_refl).
    pose proof (fun t => Hfresh _ t eq_refl) as Hlt. clear Hfresh.
    cbn in Hch, Herr, Hlt, Hrun. subst tk er.
    unfold turn, iteration. destruct ok; cbn.
    + unfold sync. destruct (syncConfigMap (cluster (env s))) as [e w'].
      split; field Hrun.
    + split; field Hrun.
  - (* case <-s.ctx.Done() *)
    destruct (loop s) as [[tk tch er]|] eqn:Hl; [|discriminate Hstep].
    destruct (cancelled s); [|discriminate Hstep].
    injection Hstep as <-. cbn in Hrun. clear Hbox.
    unfold turn, iteration, deferred. cbn.
    destruct tk as [t|]; split; field Hrun.
Qed.

Lemma exec_invariant acts : forall s s' : Sys,
  invariant s -> exec s acts = Some s' -> invariant s'.
Proof.
  induction acts as [|a acts IH]; intros s s' Hs Hexec; cbn in Hexec.
  - injection Hexec as <-. exact Hs.
  - destruct (step s a) as [s1|] eqn:Hstep; [|discriminate Hexec].
    exact (IH s1 s' (step_invariant s s1 a Hs Hstep) Hexec).
Qed.

Lemma reachable_invariant (s : Sys) : reachable s -> invariant s.
Proof.
  intros (w & acts & Hexec).
  exact (exec_invariant acts _ _ (NewSyncer_invariant w) Hexec).
Qed.

(** ** The claims about the syncer *)

Lemma tickers_of_size l : (size (tickers_of l) <= 1)%nat.
Proof.
  destruct l as [[[t|] tch er]|]; cbn.
  - rewrite size_singleton. lia.
  - rewrite size_empty. lia.
  - rewrite size_empty. lia.
Qed.

(** C7.  In every state a syncer can reach, whatever the driver called and
    however often: at most one ticker is running; a start request received
    while a ticker exists leaves the loop and everything outside as they
    were (no synchronization, no new ticker); [StartPeriodicSync] never
    blocks, and a call that finds the mailbox occupied returns with the
    mailbox unchanged. *)
Theorem at_most_one_ticker (s : Sys) :
  reachable s ->
  (size (running (env s)) <= 1)%nat /\
  (forall l t rest,
     loop s = Some l -> ticker l = Some t ->
     apiChan s = Open (startSyncRequest :: rest) ->
     step s Select_apiChan =
       Some {| apiChan := Open rest; loop := Some l; env := env s;
               cancelled := cancelled s; errChans := errChans s |}) /\
  StartPeriodicSync (apiChan s) <> Blocks /\
  (forall req buf,
     apiChan s = Open (req :: buf) -> StartPeriodicSync (apiChan s) = Returns (apiChan s)).
Proof.
  intros Hreach. pose proof (reachable_invariant s Hreach) as Hinv.
  split; [|split; [|split]].
  - rewrite (inv_running s Hinv). apply tickers_of_size.
  - intros l t rest Hl Ht Hbuf. cbn. unfold turn. rewrite Hl, Hbuf. cbn.
    rewrite Ht. reflexivity.
  - unfold StartPeriodicSync. destruct (send (apiChan s) startSyncRequest); discriminate.
  - intros req buf Hbuf. rewrite Hbuf. reflexivity.
Qed.




(** ** More about the log *)

Lemma answered_once_nil : answered_once [].
Proof. intros [|x later] c e earlier H; discriminate H. Qed.

Lemma answered_once_cons x log :
  (forall c, names c x = false) -> answered_once log -> answered_once (x :: log).
Proof.
  intros Hx Hlog [|y later] c e earlier H; cbn in H; inversion H; subst.
  - specialize (Hx c). cbn in Hx. rewrite Nat.eqb_refl in Hx. discriminate Hx.
  - destruct (Hlog _ _ _ _ eq_refl) as (Hearlier & later' & -> & Hlater).
    split; [exact Hearlier|]. exists (y :: later'). split; [reflexivity|].
    cbn. rewrite Hx. exact Hlater.
Qed.

Lemma existsb_names_app c l l' :
  existsb (names c) (l ++ l')%list = false ->
  existsb (names c) l = false /\ existsb (names c) l' = false.
Proof. rewrite existsb_app. apply orb_false_elim. Qed.

Lemma answered_once_reply c e log :
  existsb (names c) log = false -> answered_once log ->
  answered_once (ErrChanClosed c :: Replied c e :: log).
Proof.
  intros Hc Hlog later c0 e0 earlier H.
  destruct later as [|y [|z later]]; cbn in H; inversion H; subst.
  - split; [exact Hc|]. exists []. split; reflexivity.
  - destruct (Hlog _ _ _ _ eq_refl) as (Hearlier & later' & -> & Hlater).
    split; [exact Hearlier|].
    exists (ErrChanClosed c :: Replied c e :: later'). split; [reflexivity|].
    destruct (existsb_names_app _ _ _ Hc) as [_ Hc0]. cbn in Hc0.
    apply orb_false_elim in Hc0 as [Hne _].
    cbn. rewrite Nat.eqb_sym, Hne. exact Hlater.
Qed.

Lemma synced_before_ticking_nil : synced_before_ticking [].
Proof. intros [|x later] t earlier H; discriminate H. Qed.

Lemma synced_before_ticking_cons x log :
  (forall t, x <> TickerCreated t) -> synced_before_ticking log ->
  synced_before_ticking (x :: log).
Proof.
  intros Hx Hlog [|y later] t earlier H; cbn in H; inversion H; subst.
  - destruct (Hx t). reflexivity.
  - exact (Hlog _ _ _ eq_refl).
Qed.

Lemma synced_before_ticking_ticker t e log :
  synced_before_ticking log -> synced_before_ticking (TickerCreated t :: Synced e :: log).
Proof.
  intros Hlog [|y [|z later]] t0 earlier H; cbn in H; inversion H; subst.
  - eexists _, _. reflexivity.
  - exact (Hlog _ _ _ eq_refl).
Qed.

(** ** The second invariant *)

Lemma NewSyncer_finality (w : World) : finality (NewSyncer w).
Proof.
  split; cbn; try discriminate; try reflexivity.
  - apply synced_before_ticking_nil.
  - intros c [].
  - apply answered_once_nil.
Qed.

Ltac log_order :=
  repeat first
    [ assumption
    | apply synced_before_ticking_ticker
    | apply synced_before_ticking_cons; [discriminate|]
    | apply answered_once_reply; [solve [eauto]|]
    | apply answered_once_cons; [reflexivity|] ].

Lemma names_fresh (n c c' : nat) : (c' < n)%nat -> (n <= c)%nat -> (c' =? c)%nat = false.
Proof. intros. apply Nat.eqb_neq. lia. Qed.

Lemma sent_on_empty buf v ch :
  (length buf <= apiChan_capacity)%nat ->
  send (Open buf) v = Delivered ch -> buf = [] /\ ch = Open [v].
Proof.
  unfold send, apiChan_capacity. intros Hlen.
  destruct (Nat.ltb_spec (length buf) 1) as [Hlt|Hge]; [|discriminate].
  destruct buf; [|cbn in Hlt; lia]. intros [= <-]. split; reflexivity.
Qed.

(** A field of the second invariant after a step. *)
Ltac final :=
  cbn;
  lazymatch goal with
  | |- synced_before_ticking _ => log_order
  | |- answered_once _ => log_order
  | _ => intros; simplify_eq/=; first [ done | by eauto ]
  end.

Lemma step_finality (s s' : Sys) a :
  invariant s -> finality s -> step s a = Some s' -> finality s'.
Proof.
  intros [Hbox _ _ _ _ _] [Hcan Hclosed Hwound Hopen Hsync Hasked Hnamed Honce] Hstep.
  destruct a; cbn in Hstep.
  - (* StartPeriodicSync *)
    unfold StartPeriodicSync in Hstep.
    destruct (loop s) as [l|] eqn:Hl.
    + destruct (Hbox l eq_refl) as (buf & Hbuf & Hlen). rewrite Hbuf in Hstep, Hasked.
      destruct (send (Open buf) startSyncRequest) as [ch| |] eqn:Hsend;
        [| |discriminate Hstep]; injection Hstep as <-.
      * destruct (sent_on_empty _ _ _ Hlen Hsend) as [-> ->].
        split; cbn; rewrite ?Hl; auto; try discriminate; try (intros c Hc; solve [destruct Hc]).
      * split; cbn; rewrite ?Hl; auto; try discriminate.
    + rewrite (Hclosed eq_refl) in Hstep. discriminate Hstep.
  - (* Error *)
    unfold Error_send in Hstep.
    destruct (loop s) as [l|] eqn:Hl.
    + destruct (Hbox l eq_refl) as (buf & Hbuf & Hlen). rewrite Hbuf in Hstep, Hasked.
      destruct (send (Open buf) (getErrRequest (errChans s))) as [ch| |] eqn:Hsend;
        [|discriminate Hstep..]; injection Hstep as <-.
      destruct (sent_on_empty _ _ _ Hlen Hsend) as [-> ->].
      split; cbn; rewrite ?Hl; auto; try discriminate.
      * intros c [<-|[]]. split; [lia|]. apply Hnamed. lia.
      * intros c Hc. apply Hnamed. lia.
    + rewrite (Hclosed eq_refl) in Hstep. discriminate Hstep.
  - (* Cancel *)
    injection Hstep as <-. split; cbn; auto.
  - (* case req := <-s.apiChan *)
    destruct (loop s) as [[tk tch er]|] eqn:Hl; [|discriminate Hstep].
    destruct (Hbox _ eq_refl) as (buf & Hbuf & Hlen). rewrite Hbuf in Hstep, Hasked.
    destruct buf as [|req rest]; [discriminate Hstep|].
    destruct rest; [|cbn in Hlen; unfold apiChan_capacity in Hlen; lia].
    injection Hstep as <-. specialize (Hopen _ eq_refl).
    unfold turn, iteration. destruct req as [|errChan]; cbn.
    + destruct tk as [t|]; cbn.
      * split; cbn; auto; try discriminate; try (intros c Hc; solve [destruct Hc]).
      * unfold sync. destruct (syncConfigMap (cluster (env s))) as [e w'].
        split; cbn; auto; try discriminate; try (intros c Hc; solve [destruct Hc]); log_order.
    + destruct (Hasked errChan (or_introl eq_refl)) as [Hlt Hfree].
      split; cbn; auto; try discriminate; try (intros c Hc; solve [destruct Hc]); log_order.
      intros c Hc. rewrite (names_fresh _ _ _ Hlt Hc). cbn. apply Hnamed. exact Hc.
  - (* case _, ok := <-tickerCh *)
    destruct (loop s) as [[tk tch er]|] eqn:Hl; [|discriminate Hstep].
    cbn in Hstep. destruct tch as [t|] eqn:Ht; [|discriminate Hstep].
    injection Hstep as <-. specialize (Hopen _ eq_refl).
    unfold turn, iteration. destruct ok; cbn.
    + unfold sync. destruct (syncConfigMap (cluster (env s))) as [e w'].
      split; cbn; auto; try discriminate; log_order.
    + destruct tk; split; cbn; auto; try discriminate; log_order.
  - (* case <-s.ctx.Done() *)
    destruct (loop s) as [[tk tch er]|] eqn:Hl; [|discriminate Hstep].
    destruct (cancelled s) eqn:Hcancel; [|discriminate Hstep].
    injection Hstep as <-. specialize (Hopen _ eq_refl).
    unfold turn, iteration, deferred. cbn.
    destruct tk as [t|]; split; cbn; auto; try discriminate; try (intros c Hc; solve [destruct Hc]); log_order.
    + intros _. exists (effects (env s)). split; [exact Hopen|]. right. exists t. reflexivity.
    + intros _. exists (effects (env s)). split; [exact Hopen|]. left. reflexivity.
Qed.

Lemma exec_finality acts : forall s s' : Sys,
  invariant s -> finality s -> exec s acts = Some s' -> finality s'.
Proof.
  induction acts as [|a acts IH]; intros s s' Hs Hf Hexec; cbn in Hexec.
  - injection Hexec as <-. exact Hf.
  - destruct (step s a) as [s1|] eqn:Hstep; [|discriminate Hexec].
    exact (IH s1 s' (step_invariant s s1 a Hs Hstep) (step_finality s s1 a Hs Hf Hstep) Hexec).
Qed.

Lemma reachable_finality (s : Sys) : reachable s -> finality s.
Proof.
  intros (w & acts & Hexec).
  exact (exec_finality acts _ _ (NewSyncer_invariant w) (NewSyncer_finality w) Hexec).
Qed.

Lemma returned_stays (s : Sys) acts : forall s',
  loop s = None -> apiChan s = Closed -> exec s acts = Some s' ->
  loop s' = None /\ apiChan s' = Closed /\ env s' = env s.
Proof.
  revert s. induction acts as [|a acts IH]; intros s s' Hl Hch Hexec; cbn in Hexec.
  - injection Hexec as <-. auto.
  - destruct (step s a) as [s1|] eqn:Hstep; [|discriminate Hexec].
    assert (Hs1 : loop s1 = None /\ apiChan s1 = Closed /\ env s1 = env s).
    { destruct a; cbn in Hstep; rewrite ?Hl, ?Hch in Hstep; try discriminate Hstep.
      injection Hstep as <-. cbn. auto. }
    destruct Hs1 as (Hl1 & Hch1 & Henv1).
    destruct (IH s1 s' Hl1 Hch1 Hexec) as (? & ? & ?). split; [|split]; congruence.
Qed.

(** X12.  [run] returns only after the context was cancelled.  It has then
    closed [done] and [apiChan], in this order and for the first time, and
    stopped the ticker if there was one, so no ticker is left running.  From
    then on [StartPeriodicSync] and [Error] panic, as they send on the
    closed channel, and whatever else the driver does changes nothing: no
    synchronization, no ticker, no reply. *)
Theorem returned_run_is_final (s : Sys) :
  reachable s ->
  loop s = None ->
  cancelled s = true /\
  wound_up (effects (env s)) /\
  running (env s) = ∅ /\
  StartPeriodicSync (apiChan s) = Panics /\
  (forall errChan, Error_send (apiChan s) errChan = Panics) /\
  forall acts s', exec s acts = Some s' -> loop s' = None /\ env s' = env s.
Proof.
  intros Hreach Hl.
  pose proof (reachable_invariant s Hreach) as Hinv.
  pose proof (reachable_finality s Hreach) as Hfin.
  pose proof (fin_closed s Hfin Hl) as Hch.
  split; [exact (fin_cancelled s Hfin Hl)|].
  split; [exact (fin_wound_up s Hfin Hl)|].
  split; [rewrite (inv_running s Hinv), Hl; reflexivity|].
  split; [rewrite Hch; reflexivity|].
  split; [intros errChan; rewrite Hch; reflexivity|].
  intros acts s' Hexec.
  destruct (returned_stays s acts s' Hl Hch Hexec) as (? & _ & ?). auto.
Qed.

(** X13.  In every state a syncer can reach, each ticker in the log was
    created right after a synchronization: the loop never starts ticking
    without having synchronized at once. *)
Theorem ticker_follows_synchronization (s : Sys) later t earlier :
  reachable s ->
  effects (env s) = (later ++ TickerCreated t :: earlier)%list ->
  exists e earlier', earlier = Synced e :: earlier'.
Proof.
  intros Hreach Hlog.
  exact (fin_synced s (reachable_finality s Hreach) _ _ _ Hlog).
Qed.

(** X14.  In every state a syncer can reach, a reply channel that was
    answered was answered once: the reply is followed at once by the close of
    the channel, and nothing was sent on the channel or closed before the
    reply or after the close.  So the loop never sends on a closed reply
    channel, and a caller of [Error] receives exactly one value. *)
Theorem Error_is_answered_once (s : Sys) later errChan e earlier :
  reachable s ->
  effects (env s) = (later ++ Replied errChan e :: earlier)%list ->
  existsb (names errChan) earlier = false /\
  exists later',
    later = (later' ++ [ErrChanClosed errChan])%list /\
    existsb (names errChan) later' = false.
Proof.
  intros Hreach Hlog.
  exact (fin_once s (reachable_finality s Hreach) _ _ _ _ Hlog).
Qed.

End Properties.

(** ** The claims on a syncer whose first synchronization fails *)

Abbreviation run_of acts := (exec flaky_sync (NewSyncer 0%nat) acts).

Lemma at_most_one_ticker_witness :
  exists s,
    run_of started_thrice = Some s /\
    (size (running (env s)) <= 1)%nat /\
    effects (env s) = [TickerCreated 0%nat; Synced (Some (Errorf "API token not available"))] /\
    step flaky_sync s Select_apiChan =
      Some {| apiChan := Open []; loop := loop s; env := env s;
              cancelled := cancelled s; errChans := errChans s |}.
Proof.
  destruct (run_of started_thrice) as [s|] eqn:Hrun; [|discriminate Hrun].
  exists s. split; [reflexivity|].
  destruct (at_most_one_ticker flaky_sync s (ex_intro _ 0%nat (ex_intro _ started_thrice Hrun)))
    as (Hsize & Hnoop & _ & _).
  injection Hrun as <-.
  split; [exact Hsize|]. split; [reflexivity|].
  exact (Hnoop _ 0%nat [] eq_refl eq_refl eq_refl).
Defined.





(** The context is cancelled while the ticker runs. *)
Lemma returned_run_is_final_witness :
  exists s,
    run_of started_then_cancelled = Some s /\
    loop s = None /\
    cancelled s = true /\
    effects (env s) =
      [TickerStopped 0%nat; ApiChanClosed; DoneClosed; TickerCreated 0%nat;
       Synced (Some (Errorf "API token not available"))] /\
    running (env s) = ∅ /\
    StartPeriodicSync (apiChan s) = Panics.
Proof.
  destruct (run_of started_then_cancelled) as [s|] eqn:Hrun; [|discriminate Hrun].
  exists s.
  assert (Hl : loop s = None) by (injection Hrun as <-; reflexivity).
  destruct (returned_run_is_final flaky_sync s
              (ex_intro _ 0%nat (ex_intro _ started_then_cancelled Hrun)) Hl)
    as (Hcancelled & _ & Hrunning & Hstart & _).
  split; [reflexivity|]. split; [exact Hl|]. split; [exact Hcancelled|].
  split; [injection Hrun as <-; reflexivity|]. split; [exact Hrunning|exact Hstart].
Defined.

Lemma ticker_follows_synchronization_witness :
  exists s,
    run_of started_once = Some s /\
    effects (env s) =
      ([] ++ TickerCreated 0%nat :: [Synced (Some (Errorf "API token not available"))])%list /\
    exists e earlier',
      [Synced (Some (Errorf "API token not available"))] = Synced e :: earlier'.
Proof.
  destruct (run_of started_once) as [s|] eqn:Hrun; [|discriminate Hrun].
  exists s.
  assert (Hlog : effects (env s) =
                 ([] ++ TickerCreated 0%nat
                     :: [Synced (Some (Errorf "API token not available"))])%list)
    by (injection Hrun as <-; reflexivity).
  split; [reflexivity|]. split; [exact Hlog|].
  exact (ticker_follows_synchronization flaky_sync s _ _ _
           (ex_intro _ 0%nat (ex_intro _ started_once Hrun)) Hlog).
Defined.

Lemma Error_is_answered_once_witness :
  let failure := Some (Errorf "API token not available") in
  let earlier :=
    [TickerCreated 0%nat; Synced failure; ErrChanClosed 0%nat; Replied 0%nat None] in
  exists s,
    run_of asked_twice = Some s /\
    effects (env s) = ([ErrChanClosed 1%nat] ++ Replied 1%nat failure :: earlier)%list /\
    existsb (names 1%nat) earlier = false.
Proof.
  cbv zeta.
  destruct (run_of asked_twice) as [s|] eqn:Hrun; [|discriminate Hrun].
  exists s.
  assert (Hlog : effects (env s) =
                 ([ErrChanClosed 1%nat]
                    ++ Replied 1%nat (Some (Errorf "API token not available"))
                    :: [TickerCreated 0%nat; Synced (Some (Errorf "API token not available"));
                        ErrChanClosed 0%nat; Replied 0%nat None])%list)
    by (injection Hrun as <-; reflexivity).
  split; [reflexivity|]. split; [exact Hlog|].
  exact (proj1 (Error_is_answered_once flaky_sync s _ _ _ _
                  (ex_intro _ 0%nat (ex_intro _ asked_twice Hrun)) Hlog)).
Defined.

(** ** One synchronization *)

Section Synchronization.

Context {World : Type}.
Variable N : Names.
Variable O : @Outside World.
Variable endpoint : string.

Abbreviation synchronization := (synchronization N O endpoint).

(** Every way through [syncConfigMap]. *)
Ltac synchronize :=
  cbv [ConfigSync.synchronization ConfigSync.syncConfigMap getAPICertificate andThen doing
       pure returning panicking world calls];
  repeat
    (match goal with
     | |- context [GetImageAssuranceConfigurationConfigMap O ?w0] =>
         destruct (GetImageAssuranceConfigurationConfigMap O w0) as [[?|?] ?] eqn:?
     | |- context [GetImageAssuranceAPIAccessToken O ?n ?w0] =>
         destruct (GetImageAssuranceAPIAccessToken O n w0) as [[?|?] ?] eqn:?
     | |- context [clientGet O ?nn ?w0] =>
         destruct (clientGet O nn w0) as [[?|?] ?] eqn:?
     | |- context [GetOrganization O ?certs ?ep ?tok ?id ?w0] =>
         destruct (GetOrganization O certs ep tok id w0) as [[?|?] ?] eqn:?
     | |- context [clientUpdate O ?cm ?w0] =>
         destruct (clientUpdate O cm w0) as [[?|] ?] eqn:?
     | |- context [(length ?t =? 0)%nat] => destruct (length t =? 0)%nat eqn:?
     | |- context [match Data ?cm with _ => _ end] => destruct (Data cm) eqn:?
     end; cbv beta iota zeta);
  cbn [fst snd].

Lemma nonempty_token (token : bytes) : (length token =? 0)%nat = false -> token <> [].
Proof. intros H ->. discriminate H. Qed.

(** X15.  A synchronization that returns nil has made exactly five calls:
    it read the configuration config map, whose data is not nil, the token,
    which is not empty, and the secret of the API certificate, asked the API
    at the syncer's endpoint for the organization named in the config map
    (for the empty name if the config map names none), with that token and
    the certificate of that secret (no certificate if the secret has no
    "tls.crt"), and wrote the config map back without error.  What it wrote
    has "runtimeViewEnabled" set to the API's answer and agrees with what it
    read on every other key. *)
Theorem synchronization_succeeds w :
  fst (synchronization w) = Return None ->
  exists data written token secret org,
    token <> [] /\
    calls (snd (synchronization w)) =
      [ Updated {| Data := Some written |} None;
        AskedOrganization (default [] (secData secret !! "tls.crt")) endpoint
          (String.string_of_list_byte token)
          (default "" (data !! ConfigurationConfigMapOrgIDKey N)) (Ok org);
        GotSecret {| Name := APICertSecretName N; Namespace := OperatorNamespace N |}
          (Ok secret);
        GotToken (OperatorAPIAccessServiceAccountName N) (Ok token);
        GotConfiguration (Ok {| Data := Some data |}) ] /\
    written !! "runtimeViewEnabled" = Some (FormatBool (RuntimeViewEnabled org)) /\
    forall key, key <> "runtimeViewEnabled" -> written !! key = data !! key.
Proof.
  synchronize; intros Hret; try discriminate Hret.
  match goal with
  | Hdata : Data ?cm = Some ?d |- _ => destruct cm as [data']; cbn in Hdata; subst data'
  end.
  eexists _, _, _, _, _.
  split; [apply nonempty_token; eassumption|].
  split; [reflexivity|].
  split; [apply lookup_insert_eq|].
  intros key Hkey. apply lookup_insert_ne. congruence.
Qed.

(** X16.  In every synchronization the config map is written at most once,
    and then as the last call.  The synchronization returns nil exactly when
    that write took place without error; if the write failed, that failure
    is returned, wrapped. *)
Theorem writes_once_at_the_end w :
  existsb is_update (tl (calls (snd (synchronization w)))) = false /\
  (fst (synchronization w) = Return None <->
   exists cm, hd_error (calls (snd (synchronization w))) = Some (Updated cm None)) /\
  forall cm err,
    hd_error (calls (snd (synchronization w))) = Some (Updated cm (Some err)) ->
    fst (synchronization w) =
      Return (Some (wrapped "failed to update Image Assurance configuration" err)).
Proof.
  synchronize.
  all: split; [reflexivity|]; split;
    [ split; [intros Hret; first [discriminate Hret | eexists; reflexivity]
             |intros (cm & Hhd); first [discriminate Hhd | reflexivity]]
    | intros cm err Hhd; first [discriminate Hhd | injection Hhd as <- <-; reflexivity] ].
Qed.

(** X17.  The API is asked at most once, and only at the syncer's endpoint
    with what this synchronization read before: a token that is not empty,
    the organization id of the configuration config map (the empty string
    if it has none), and the certificate of the API secret (nothing if it
    has none). *)
Theorem asks_with_what_it_read w rootCAs ep tok orgID r :
  In (AskedOrganization rootCAs ep tok orgID r) (calls (snd (synchronization w))) ->
  ep = endpoint /\
  exists cm token secret,
    token <> [] /\
    tok = String.string_of_list_byte token /\
    orgID = index (Data cm) (ConfigurationConfigMapOrgIDKey N) /\
    rootCAs = default [] (secData secret !! "tls.crt") /\
    In (GotConfiguration (Ok cm)) (calls (snd (synchronization w))) /\
    In (GotToken (OperatorAPIAccessServiceAccountName N) (Ok token))
      (calls (snd (synchronization w))) /\
    In (GotSecret {| Name := APICertSecretName N; Namespace := OperatorNamespace N |}
          (Ok secret))
      (calls (snd (synchronization w))).
Proof.
  synchronize; intros Hin.
  all: repeat (destruct Hin as [Hin|Hin]; [try discriminate Hin|]); try solve [destruct Hin].
  all: injection Hin as <- <- <- <- <-.
  all: split; [reflexivity|].
  all: match goal with
       | H : GetImageAssuranceConfigurationConfigMap O _ = (Ok ?cm, _) |- _ => exists cm
       end; eexists _, _.
  all: split; [apply nonempty_token; eassumption|].
  all: split; [reflexivity|]; split;
         [first [reflexivity
                | match goal with H : Data _ = _ |- _ => rewrite H; reflexivity end]|];
         split; [reflexivity|].
  all: cbn [In]; split; [tauto|split; tauto].
Qed.

(** X18.  A synchronization panics exactly when everything up to the
    answer of the API went well and the configuration config map has no
    data: the assignment to an entry of the nil map is the only statement
    that can panic, and nothing is written then. *)
Theorem panics_exactly_on_nil_data w :
  fst (synchronization w) = Panic <->
  exists rootCAs tok orgID org rest,
    calls (snd (synchronization w)) =
      AskedOrganization rootCAs endpoint tok orgID (Ok org) :: rest /\
    In (GotConfiguration (Ok {| Data := None |})) rest.
Proof.
  synchronize.
  all: split;
    [ intros Hpanic; first
        [ discriminate Hpanic
        | match goal with
          | Hdata : Data ?cm = None |- _ => destruct cm as [data']; cbn in Hdata; subst data'
          end;
          eexists _, _, _, _, _; split; [reflexivity|]; cbn [In]; tauto ]
    | intros (? & ? & ? & ? & ? & Hcalls & _); first [discriminate Hcalls | reflexivity] ].
Qed.

End Synchronization.

(** ** Synchronizations of the small cluster *)

Abbreviation synchronization_of O st := (synchronization Remote.N O Remote.endpoint st).

Lemma synchronization_succeeds_witness :
  fst (synchronization_of Remote.O Remote.ready) = Return None /\
  exists written,
    hd_error (calls (snd (synchronization_of Remote.O Remote.ready))) =
      Some (Updated {| Data := Some written |} None) /\
    written !! "runtimeViewEnabled" = Some "true" /\
    written !! "organizationID" = Some "org1".
Proof.
  assert (Hret : fst (synchronization_of Remote.O Remote.ready) = Return None).
  { vm_compute. reflexivity. }
  split; [exact Hret|].
  destruct (synchronization_succeeds Remote.N Remote.O Remote.endpoint Remote.ready Hret)
    as (data & written & token & secret & org & _ & Hcalls & Henabled & Hkept).
  exists written. rewrite Hcalls. split; [reflexivity|].
  assert (Hasked : In (AskedOrganization (bytes_of_string "cert") Remote.endpoint "token"
                         "org1" (Ok {| RuntimeViewEnabled := true |}))
                     (calls (snd (synchronization_of Remote.O Remote.ready)))).
  { vm_compute. right. left. reflexivity. }
  assert (Hread : In (GotConfiguration (Ok {| Data := Some {[ "organizationID" := "org1" ]} |}))
                    (calls (snd (synchronization_of Remote.O Remote.ready)))).
  { apply (nth_error_In _ 4). vm_compute. reflexivity. }
  rewrite Hcalls in Hasked, Hread. cbn [In] in Hasked, Hread.
  destruct Hasked as [Hasked|[Hasked|[Hasked|[Hasked|[Hasked|[]]]]]]; try discriminate Hasked.
  injection Hasked as _ _ _ Horg.
  destruct Hread as [Hread|[Hread|[Hread|[Hread|[Hread|[]]]]]]; try discriminate Hread.
  injection Hread as Hdata.
  split.
  - rewrite Henabled, Horg. reflexivity.
  - rewrite Hkept by discriminate. rewrite Hdata. reflexivity.
Defined.

Lemma asks_with_what_it_read_witness :
  In (AskedOrganization (bytes_of_string "cert") Remote.endpoint "token" "org1"
        (Ok {| RuntimeViewEnabled := true |}))
    (calls (snd (synchronization_of Remote.O Remote.ready))) /\
  Remote.endpoint = Remote.endpoint /\
  exists cm,
    "org1" = index (Data cm) (ConfigurationConfigMapOrgIDKey Remote.N) /\
    In (GotConfiguration (Ok cm)) (calls (snd (synchronization_of Remote.O Remote.ready))).
Proof.
  assert (Hasked : In (AskedOrganization (bytes_of_string "cert") Remote.endpoint "token"
                         "org1" (Ok {| RuntimeViewEnabled := true |}))
                     (calls (snd (synchronization_of Remote.O Remote.ready)))).
  { vm_compute. right. left. reflexivity. }
  split; [exact Hasked|].
  destruct (asks_with_what_it_read Remote.N Remote.O Remote.endpoint Remote.ready
              _ _ _ _ _ Hasked)
    as (Hep & cm & token & secret & _ & _ & Horg & _ & Hcm & _).
  split; [exact Hep|]. exists cm. split; [exact Horg|exact Hcm].
Defined.

(** Without a token the synchronization fails before it reads the secret
    or asks the API. *)
Lemma synchronization_without_token :
  synchronization_of Remote.O Remote.without_token =
    (Return (Some (Errorf "API token not available")),
     {| world := Remote.without_token;
        calls := [GotToken "tigera-image-assurance-operator-api-access" (Ok []);
                  GotConfiguration (Ok {| Data := Some {[ "organizationID" := "org1" ]} |})] |}).
Proof. reflexivity. Qed.

(** With a config map without data and an API that answers for the empty
    organization id, the synchronization panics. *)
Lemma synchronization_without_data :
  fst (synchronization_of Remote.O_lenient Remote.without_data) = Panic.
Proof. reflexivity. Qed.

End ConfigSyncProofs.
